(** * m5::container::CircularBuffer

    A shallow embedding of [M5Utility/src/m5_utility/container/circular_buffer.hpp]
    and the properties of the ring buffer that its documentation states.
    Two smaller parts follow it: the file names of the log
    ([M5Utility/src/m5_utility/log/library_log.hpp], module [Log]) and the
    buttons and I2C buses of the boards ([M5Unified/src/M5Unified.cpp],
    module [Unified]).

    Conventions.
    - [size_t] values are integers of [Z]; every [+], [-], [++] the C++ code
      performs on them is written with its reduction modulo [2 ^ size_bits].
      [%] needs no reduction (its result is below its right operand).
    - [std::vector<T>] is a [list T]; [v[i]] reads with [vec_get] and
      assigns with [vec_set].  An index outside the vector is undefined
      behaviour in C++; lemmas [*_in_bounds] show that the code never produces
      one in a well-formed buffer.
    - [std::optional<T>] is [option T].
    - a member function that mutates [*this] maps the old buffer to the new. *)

From Stdlib Require Import Ascii String.
From stdpp Require Import base numbers option list relations strings.

Local Open Scope Z_scope.

(** ** Unsigned machine arithmetic ([size_t]) *)

(** The width of [size_t] on the target. *)
Class SizeT : Type := { size_bits : Z }.

Section SizeT.
Context `{SizeT}.

(** Conversion to [size_t]: reduction modulo [2 ^ size_bits]. *)
Definition to_size_t (z : Z) : Z := z mod 2 ^ size_bits.

Definition size_add (a b : Z) : Z := to_size_t (a + b).
Definition size_sub (a b : Z) : Z := to_size_t (a - b).

(** Largest value of [ptrdiff_t]; [std::vector<T>::max_size()] never
    exceeds it, so [resize(n)] throws [std::length_error] above it. *)
Definition PTRDIFF_MAX : Z := 2 ^ (size_bits - 1) - 1.
End SizeT.

(** ** The container *)

Notation "a +% b" := (size_add a b) (at level 50, left associativity).
Notation "a -% b" := (size_sub a b) (at level 50, left associativity).

(** The value-initialised element [T()], which [resize] stores. *)
Class ValueInit (T : Type) : Type := { value_init : T }.

Section CircularBuffer.
Context `{SizeT} {T : Type} `{ValueInit T}.

(** [v[i]] as an rvalue. *)
Definition vec_get (v : list T) (i : Z) : T := default value_init (v !! Z.to_nat i).
(** [v[i] = x]. *)
Definition vec_set (v : list T) (i : Z) (x : T) : list T := <[Z.to_nat i := x]> v.

(** The private members, in declaration order. *)
Record CircularBuffer : Type := mkCB {
  _buf : list T;
  _cap : Z;
  _head : Z;
  _tail : Z;
  _full : bool
}.

(** [explicit CircularBuffer(const size_t n)].  [None] stands for the two
    ways in which construction does not produce a buffer: the assertion
    [n != 0] ([n] is a [size_t], so it is not negative either), and the
    exception of [_buf.resize(n)] for [n] above [max_size()]. *)
Definition make (n : Z) : option CircularBuffer :=
  if n <=? 0 then None
  else if PTRDIFF_MAX <? n then None
  else Some {| _buf := replicate (Z.to_nat n) value_init; _cap := n;
               _head := 0; _tail := 0; _full := false |}.

(** *** Capacity *)

Definition full (b : CircularBuffer) : bool := _full b.

Definition empty (b : CircularBuffer) : bool :=
  negb (full b) && (_head b =? _tail b).

Definition size (b : CircularBuffer) : Z :=
  if full b then _cap b
  else if _tail b <=? _head b then _head b -% _tail b
       else _cap b +% _head b -% _tail b.

Definition capacity (b : CircularBuffer) : Z := _cap b.

(** *** Element access *)

Definition front (b : CircularBuffer) : option T :=
  if negb (empty b) then Some (vec_get (_buf b) (_tail b)) else None.

Definition back (b : CircularBuffer) : option T :=
  if negb (empty b)
  then Some (vec_get (_buf b) ((_head b -% 1 +% _cap b) mod _cap b))
  else None.

(** [operator[]]; the two assertions are its precondition. *)
Definition index (b : CircularBuffer) (i : Z) : T :=
  vec_get (_buf b) ((_tail b +% i) mod _cap b).

(** [at(i)] ([at] is a keyword here, hence [at_]). *)
Definition at_ (b : CircularBuffer) (i : Z) : option T :=
  if negb (empty b) && (i <? size b)
  then Some (vec_get (_buf b) ((_tail b +% i) mod _cap b))
  else None.

(** *** Modifiers *)

Definition clear (b : CircularBuffer) : CircularBuffer :=
  {| _buf := _buf b; _cap := _cap b; _head := 0; _tail := 0; _full := false |}.

Definition push_front (v : T) (b : CircularBuffer) : CircularBuffer :=
  let tail := (_tail b -% 1 +% _cap b) mod _cap b in
  let buf := vec_set (_buf b) tail v in
  let head := if _full b then (_head b -% 1 +% _cap b) mod _cap b else _head b in
  {| _buf := buf; _cap := _cap b; _head := head; _tail := tail;
     _full := (head =? tail) |}.

Definition push_back (v : T) (b : CircularBuffer) : CircularBuffer :=
  let buf := vec_set (_buf b) (_head b) v in
  let head := (_head b +% 1) mod _cap b in
  let tail := if _full b then (_tail b +% 1) mod _cap b else _tail b in
  {| _buf := buf; _cap := _cap b; _head := head; _tail := tail;
     _full := (head =? tail) |}.

Definition pop_front (b : CircularBuffer) : CircularBuffer :=
  if negb (empty b)
  then {| _buf := _buf b; _cap := _cap b; _head := _head b;
          _tail := (_tail b +% 1) mod _cap b; _full := false |}
  else b.

Definition pop_back (b : CircularBuffer) : CircularBuffer :=
  if negb (empty b)
  then {| _buf := _buf b; _cap := _cap b;
          _head := (_head b -% 1 +% _cap b) mod _cap b;
          _tail := _tail b; _full := false |}
  else b.

(** *** Operations *)

(** [std::fill(_buf.begin(), _buf.end(), v)] keeps the vector's length. *)
Definition fill (v : T) (b : CircularBuffer) : CircularBuffer :=
  let b := clear b in
  {| _buf := replicate (length (_buf b)) v; _cap := _cap b;
     _head := _head b; _tail := _tail b; _full := true |}.

(** [a.swap(o)]: the new [a] and the new [o].  When [this == &o] both
    arguments are one buffer and exchanging the members changes nothing. *)
Definition swap (a o : CircularBuffer) : CircularBuffer * CircularBuffer :=
  ({| _buf := _buf o; _cap := _cap o; _head := _head o; _tail := _tail o;
      _full := _full o |},
   {| _buf := _buf a; _cap := _cap a; _head := _head a; _tail := _tail a;
      _full := _full a |}).

(** *** Assignment

    A range [[first, last)] is the list of its elements: [first += k] drops
    [k] of them and [*first++] takes the head.  Reading at [last] is
    undefined; the loop below stops there. *)

(** [while (n--) { push_back( *first++); }] *)
Fixpoint assign_loop (n : nat) (first : list T) (b : CircularBuffer)
  : CircularBuffer :=
  match n, first with
  | S n', x :: first' => assign_loop n' first' (push_back x b)
  | _, _ => b
  end.

(** [assign(InputIterator first, InputIterator last)];
    [sz] is [last - first] converted to [size_type]. *)
Definition assign (range : list T) (b : CircularBuffer) : CircularBuffer :=
  let b := clear b in
  let sz := to_size_t (Z.of_nat (length range)) in
  let first := if _cap b <? sz
               then drop (Z.to_nat (sz -% _cap b)) range else range in
  let n := Z.min (_cap b) sz in
  assign_loop (Z.to_nat n) first b.

(** [while (n--) { push_back(v); }] *)
Fixpoint assign_fill_loop (n : nat) (v : T) (b : CircularBuffer)
  : CircularBuffer :=
  match n with
  | S n' => assign_fill_loop n' v (push_back v b)
  | O => b
  end.

(** [assign(size_type n, const_reference v)] *)
Definition assign_fill (n : Z) (v : T) (b : CircularBuffer) : CircularBuffer :=
  let b := clear b in
  let n := Z.min (_cap b) n in
  assign_fill_loop (Z.to_nat n) v b.

(** [CircularBuffer(n, value)] and [CircularBuffer(n, first, last)] (the
    initializer-list constructor delegates to the latter). *)
Definition make_fill (n : Z) (v : T) : option CircularBuffer :=
  assign_fill n v <$> make n.

Definition make_range (n : Z) (range : list T) : option CircularBuffer :=
  assign range <$> make n.

(** *** Bulk read *)

(** [std::copy(src, src + elms, out)] with [src = &v[from]] and [out]
    pointing [off] elements into the caller's array [dst]. *)
Definition copy (v : list T) (from elms : Z) (dst : list T) (off : Z) : list T :=
  list_inserts (Z.to_nat off) (take (Z.to_nat elms) (drop (Z.to_nat from) v)) dst.

(** [read(outbuf, num)]: the buffer after the call, the caller's array
    after the call, and the returned count. *)
Definition read (b : CircularBuffer) (outbuf : list T) (num : Z)
  : CircularBuffer * list T * Z :=
  let sz := Z.min num (size b) in
  if sz =? 0 then (b, outbuf, sz)
  else
    let tail := _tail b in
    let elms := Z.min (_cap b -% tail) sz in
    let out1 := copy (_buf b) tail elms outbuf 0 in
    let tail := (tail +% elms) mod _cap b in
    let ret := elms in
    if elms <? sz then
      let off := elms in
      let elms := sz -% elms in
      let out2 := copy (_buf b) tail elms out1 off in
      (b, out2, ret +% elms)
    else (b, out1, ret).

(** *** Iterators

    [_buffer] is the address of the buffer the iterator walks; the buffer
    stored there is passed to the dereference. *)
Record iterator : Type := mkIter { _buffer : nat; _pos : Z }.

Definition iter_deref (b : CircularBuffer) (it : iterator) : T :=
  vec_get (_buf b) (_pos it mod capacity b).
Definition iter_incr (it : iterator) : iterator :=
  {| _buffer := _buffer it; _pos := _pos it +% 1 |}.
Definition iter_decr (it : iterator) : iterator :=
  {| _buffer := _buffer it; _pos := _pos it -% 1 |}.
Definition iter_eqb (a b : iterator) : bool :=
  (_buffer a =? _buffer b)%nat && (_pos a =? _pos b).

(** [begin()] and [end()] of the buffer stored at address [this]. *)
Definition begin_ (this : nat) (b : CircularBuffer) : iterator :=
  {| _buffer := this; _pos := _tail b |}.
Definition end_ (this : nat) (b : CircularBuffer) : iterator :=
  {| _buffer := this; _pos := _tail b +% size b |}.

(** [std::reverse_iterator<iterator>]: it keeps a base iterator [current],
    dereferences the element before it and advances by stepping it back. *)
Record reverse_iterator : Type := mkRev { current : iterator }.

Definition rev_deref (b : CircularBuffer) (r : reverse_iterator) : T :=
  iter_deref b (iter_decr (current r)).
Definition rev_incr (r : reverse_iterator) : reverse_iterator :=
  {| current := iter_decr (current r) |}.
Definition rev_eqb (a b : reverse_iterator) : bool :=
  iter_eqb (current a) (current b).

Definition rbegin (this : nat) (b : CircularBuffer) : reverse_iterator :=
  {| current := end_ this b |}.
Definition rend (this : nat) (b : CircularBuffer) : reverse_iterator :=
  {| current := begin_ this b |}.

(** [for (; it != last; ++it) out.push_back( *it);] with a bound on the
    number of rounds; [None] when the bound is used up before [it]
    reaches [last]. *)
Fixpoint traverse (fuel : nat) (b : CircularBuffer) (it last : iterator)
  : option (list T) :=
  if iter_eqb it last then Some []
  else match fuel with
       | O => None
       | S fuel' => cons (iter_deref b it) <$> traverse fuel' b (iter_incr it) last
       end.

Fixpoint rtraverse (fuel : nat) (b : CircularBuffer) (it last : reverse_iterator)
  : option (list T) :=
  if rev_eqb it last then Some []
  else match fuel with
       | O => None
       | S fuel' => cons (rev_deref b it) <$> rtraverse fuel' b (rev_incr it) last
       end.

(** ** Well-formed buffers and their logical contents *)

(** The representation invariant of the class. *)
Record wf (b : CircularBuffer) : Prop := mkWf {
  wf_cap : 0 < _cap b <= PTRDIFF_MAX;
  wf_len : Z.of_nat (length (_buf b)) = _cap b;
  wf_head : 0 <= _head b < _cap b;
  wf_tail : 0 <= _tail b < _cap b;
  wf_full : _full b = true -> _head b = _tail b
}.

(** The invariant as a test, for concrete buffers. *)
Definition wfb (b : CircularBuffer) : bool :=
  (0 <? _cap b) && (_cap b <=? PTRDIFF_MAX)
  && (Z.of_nat (length (_buf b)) =? _cap b)
  && (0 <=? _head b) && (_head b <? _cap b)
  && (0 <=? _tail b) && (_tail b <? _cap b)
  && implb (_full b) (_head b =? _tail b).

(** The elements a buffer holds, front to back: [b[0]], ..., [b[size-1]]. *)
Definition contents (b : CircularBuffer) : list T :=
  index b <$> seqZ 0 (size b).

(** States that the public interface can produce. *)
Inductive reachable : CircularBuffer -> Prop :=
| reach_make n b : make n = Some b -> reachable b
| reach_push_back v b : reachable b -> reachable (push_back v b)
| reach_push_front v b : reachable b -> reachable (push_front v b)
| reach_pop_front b : reachable b -> reachable (pop_front b)
| reach_pop_back b : reachable b -> reachable (pop_back b)
| reach_clear b : reachable b -> reachable (clear b)
| reach_fill v b : reachable b -> reachable (fill v b)
| reach_assign range b : reachable b -> reachable (assign range b)
| reach_assign_fill n v b : reachable b -> reachable (assign_fill n v b)
| reach_read b out num : reachable b -> reachable (read b out num).1.1
| reach_swap_l a o : reachable a -> reachable o -> reachable (swap a o).1
| reach_swap_r a o : reachable a -> reachable o -> reachable (swap a o).2.

(** [represents b c l]: [b] is a well-formed buffer of capacity [c] that
    holds the elements [l], front to back. *)
Definition represents (b : CircularBuffer) (c : Z) (l : list T) : Prop :=
  wf b /\ capacity b = c /\ contents b = l.
End CircularBuffer.

(** ** The rest of the container's interface *)

Section CircularBufferMore.
Context `{SizeT} {T : Type} `{ValueInit T}.

(** *** [FixedCircularBuffer<T, N>]

    The subclass adds no member; its constructors pass the template
    parameter [N] to the constructors of [CircularBuffer<T>]. *)
Definition fixed_make (N : Z) : option (@CircularBuffer T) := make N.

(** [FixedCircularBuffer(n, value)]: capacity [N], then [assign(n, value)]. *)
Definition fixed_make_fill (N n : Z) (v : T) : option (@CircularBuffer T) :=
  assign_fill n v <$> make N.

Definition fixed_make_range (N : Z) (range : list T)
  : option (@CircularBuffer T) :=
  make_range N range.

(** *** Loops of the callers *)

(** [for (x : l) { rb.push_back(x); }], the way the unit test fills a
    buffer. *)
Fixpoint push_back_all (l : list T) (b : @CircularBuffer T)
  : @CircularBuffer T :=
  match l with
  | [] => b
  | x :: l' => push_back_all l' (push_back x b)
  end.

(** [for (it = last; it != first;) { --it; out.push_back( *it); }], the
    backward loop of the unit test, with a bound on the number of rounds. *)
Fixpoint traverse_back (fuel : nat) (b : @CircularBuffer T)
    (it first : iterator) : option (list T) :=
  if iter_eqb it first then Some []
  else match fuel with
       | O => None
       | S fuel' =>
           let it' := iter_decr it in
           cons (iter_deref b it') <$> traverse_back fuel' b it' first
       end.

(** One call of a member function that may modify the buffer it is called
    on ([swap] modifies two buffers and is left out). *)
Inductive mutates : @CircularBuffer T -> @CircularBuffer T -> Prop :=
| mut_push_back v b : mutates b (push_back v b)
| mut_push_front v b : mutates b (push_front v b)
| mut_pop_front b : mutates b (pop_front b)
| mut_pop_back b : mutates b (pop_back b)
| mut_clear b : mutates b (clear b)
| mut_fill v b : mutates b (fill v b)
| mut_assign range b : mutates b (assign range b)
| mut_assign_fill n v b : mutates b (assign_fill n v b)
| mut_read b out num : mutates b (read b out num).1.1.
End CircularBufferMore.

(** ** A concrete target

    A 32-bit [size_t], as on the ESP32, and buffers of [int], whose
    value-initialised element is [0]. *)
Definition size_t_32 : SizeT := {| size_bits := 32 |}.
Definition int_init : ValueInit Z := {| value_init := 0 |}.

(** The buffer of [int] that [CircularBuffer<int>(4)] constructs. *)
Definition fresh_4 : @CircularBuffer Z :=
  {| _buf := [0; 0; 0; 0]; _cap := 4; _head := 0; _tail := 0; _full := false |}.

(** [fresh_4] after [push_back] of 9, 8, 7, 6. *)
Definition full_4 : @CircularBuffer Z :=
  {| _buf := [9; 8; 7; 6]; _cap := 4; _head := 0; _tail := 0; _full := true |}.

(** [fresh_4] after [push_back] of 0, 1, 2, 3, [pop_front()] and
    [push_back(4)]: the contents wrap around the end of the vector. *)
Definition wrapped_4 : @CircularBuffer Z :=
  {| _buf := [4; 1; 2; 3]; _cap := 4; _head := 1; _tail := 1; _full := true |}.

(** ** File names for the log ([library_log.hpp]) *)

Module Log.

(** A [const char*] that points into a character array: [before] holds the
    characters in front of the pointer, the nearest first, and [after] the
    characters from the pointer on.  The array ends with the terminator,
    which [after] leaves out; a zero character inside [after] terminates
    the string earlier. *)
Record cptr : Type := mkPtr { before : list ascii; after : list ascii }.

Definition NUL : ascii := "000"%char.
Definition slash : ascii := "/"%char.

(** [*s == c] *)
Definition points_at (c : ascii) (af : list ascii) : bool :=
  match af with
  | [] => bool_decide (c = NUL)
  | x :: _ => bool_decide (x = c)
  end.

(** The string that starts at a pointer: the characters up to the
    terminator. *)
Fixpoint c_str_of (af : list ascii) : list ascii :=
  match af with
  | [] => []
  | x :: af' => if bool_decide (x = NUL) then [] else x :: c_str_of af'
  end.

Definition c_str (s : cptr) : list ascii := c_str_of (after s).

(** [containss_slash(s)]; the recursive call takes [s + 1]. *)
Fixpoint containss_slash_at (af : list ascii) : bool :=
  match af with
  | [] => false
  | x :: af' =>
      if bool_decide (x = NUL) then false
      else if bool_decide (x = slash) then true
           else containss_slash_at af'
  end.

Definition containss_slash (s : cptr) : bool := containss_slash_at (after s).

(** [tail(s)]: the pointer to the terminator; the recursive call takes
    [s + 1]. *)
Fixpoint tail_at (bf af : list ascii) : cptr :=
  match af with
  | [] => {| before := bf; after := [] |}
  | x :: af' =>
      if bool_decide (x = NUL) then {| before := bf; after := af |}
      else tail_at (x :: bf) af'
  end.

Definition tail (s : cptr) : cptr := tail_at (before s) (after s).

(** [after_right_slash(s)]; the recursive call takes [s - 1].  [None]
    stands for the undefined step to a position in front of the array. *)
Fixpoint after_right_slash_at (bf af : list ascii) : option cptr :=
  if points_at slash af
  then Some {| before := slash :: bf; after := drop 1 af |}
  else match bf with
       | [] => None
       | x :: bf' => after_right_slash_at bf' (x :: af)
       end.

Definition after_right_slash (s : cptr) : option cptr :=
  after_right_slash_at (before s) (after s).

(** The string literal [""]. *)
Definition empty_literal : cptr := {| before := []; after := [] |}.

(** [pathToFilename(path)]; [path = None] is the null pointer. *)
Definition pathToFilename (path : option cptr) : option cptr :=
  match path with
  | Some p =>
      if negb (points_at NUL (after p))
      then if containss_slash p then after_right_slash (tail p) else Some p
      else Some empty_literal
  | None => Some empty_literal
  end.

(** The rest of an array behind a string: nothing, or the terminator and
    whatever follows it. *)
Definition terminated (rest : list ascii) : Prop :=
  points_at NUL rest = true.

End Log.

(** ** Board support ([M5Unified.cpp], ESP32 target) *)

Module Unified.

(** The enumerators of [m5::board_t] that [M5Unified.cpp] names;
    [board_other] stands for the enumerators it does not name, which take
    the [default] branch of every [switch]. *)
Inductive board_t : Type :=
| board_unknown
| board_M5Stack
| board_M5StackCore2
| board_M5StickC
| board_M5StickCPlus
| board_M5StackCoreInk
| board_M5Paper
| board_M5Tough
| board_M5Station
| board_M5Atom
| board_M5AtomPsram
| board_M5AtomU
| board_M5TimerCam
| board_M5StampPico
| board_M5StampC3
| board_M5StampC3U
| board_M5AtomDisplay
| board_other (id : nat).

(** The width of [uint_fast8_t] on the target. *)
Class Fast8 : Type := { fast8_bits : Z }.

Section Update.
Context `{Fast8}.

(** Conversion to [uint_fast8_t] and to [uint32_t]. *)
Definition to_fast8 (z : Z) : Z := z mod 2 ^ fast8_bits.
Definition to_uint32 (z : Z) : Z := z mod 2 ^ 32.

(** [uint_fast8_t raw_gpio37_40 = ~GPIO.in1.data >> 5;]
    [GPIO.in1.data] holds the levels of GPIO32 to GPIO39; it is promoted to
    [int], whose complement is negative and is shifted arithmetically. *)
Definition raw_gpio37_40 (in1_data : Z) : Z :=
  to_fast8 (Z.shiftr (Z.lnot in1_data) 5).

(** [btn_bits] after the [switch (_board)] of [update()].  The case of the
    Core2 computes it from the touch panel; its result is the argument
    [core2_bits].  The CoreInk falls through to the Paper, the M5Stack to
    the ATOM. *)
Definition btn_bits (board : board_t) (raw core2_bits : Z) : Z :=
  match board with
  | board_M5StackCore2 => core2_bits
  | board_M5StackCoreInk | board_M5Paper | board_M5Station =>
      to_fast8 (Z.land raw 0x07)
  | board_M5Stack =>
      let bits := to_fast8 (Z.land raw 0x02 + Z.shiftl (Z.land raw 0x01) 2) in
      to_fast8 (bits + Z.shiftr (Z.land raw 0x04) 2)
  | board_M5Atom | board_M5AtomPsram | board_M5AtomU | board_M5StampPico =>
      to_fast8 (0 + Z.shiftr (Z.land raw 0x04) 2)
  | board_M5StickC | board_M5StickCPlus =>
      to_fast8 (Z.land raw 0x01 + Z.shiftr (Z.land raw 0x04) 1)
  | _ => 0
  end.

(** The conversion of an integer to [bool]. *)
Definition to_bool (z : Z) : bool := negb (z =? 0).

(** The raw states that one [update()] hands to [setRawState] of the
    buttons; [None] when the button is not touched. *)
Record raw_states : Type := mkRaw {
  BtnA : bool;
  BtnB : bool;
  BtnC : bool;
  BtnEXT : option bool;
  BtnPWR : option bool
}.

Definition CoreInk_BUTTON_EXT_PIN : Z := 5.
Definition CoreInk_BUTTON_PWR_PIN : Z := 27.

(** The button part of [update()]: [in1_data] is [GPIO.in1.data] and
    [gpio_in] is [GPIO.in], the levels of GPIO0 to GPIO31. *)
Definition update_buttons (board : board_t) (in1_data gpio_in core2_bits : Z)
  : raw_states :=
  let raw := raw_gpio37_40 in1_data in
  let bits := btn_bits board raw core2_bits in
  let raw_gpio0_31 := to_uint32 (Z.lnot gpio_in) in
  let ink (pin : Z) :=
    match board with
    | board_M5StackCoreInk =>
        Some (to_bool (Z.land raw_gpio0_31 (Z.shiftl 1 pin)))
    | _ => None
    end in
  {| BtnA := to_bool (Z.land bits 1);
     BtnB := to_bool (Z.land bits 2);
     BtnC := to_bool (Z.land bits 4);
     BtnEXT := ink CoreInk_BUTTON_EXT_PIN;
     BtnPWR := ink CoreInk_BUTTON_PWR_PIN |}.

(** A button pulls its pin low: GPIO [pin] (32 to 39) reads low in
    [GPIO.in1.data], GPIO [pin] (0 to 31) reads low in [GPIO.in]. *)
Definition low1 (in1_data pin : Z) : bool := negb (Z.testbit in1_data (pin - 32)).
Definition low0 (gpio_in pin : Z) : bool := negb (Z.testbit gpio_in pin).
End Update.
(** *** [_check_boardtype] *)

Inductive pin_mode_t : Type := output | input | input_pullup | input_pulldown.

(** The arguments of [In_I2C.begin] and of [Ex_I2C.setPort]. *)
Record i2c_setup : Type := mkI2C { port : Z; pin_sda : Z; pin_scl : Z }.

(** What one call does: the board it returns, the [pinMode] calls it
    makes, in order, and the setup of the two I2C buses. *)
Record check_result : Type := mkCheck {
  board : board_t;
  pin_modes : list (Z * pin_mode_t);
  In_I2C : i2c_setup;
  Ex_I2C : i2c_setup
}.

Section CheckBoard.
(** Two package codes of [soc/efuse_reg.h]. *)
Variables EFUSE_RD_CHIP_VER_PKG_ESP32D0WDQ6 EFUSE_RD_CHIP_VER_PKG_ESP32PICOD4 : Z.
(** The board of the [ARDUINO_...] macro that the build defines, if it
    defines one of those that the [default] branch tests. *)
Variable arduino_board : option board_t.

(** The [switch (m5gfx::get_pkg_ver())], for [board_unknown]: [pkg_ver] is
    the package code and [gpio2], [gpio34] are what [gpio_in] reads. *)
Definition detect_board (pkg_ver : Z) (gpio2 gpio34 : bool)
  : board_t * list (Z * pin_mode_t) :=
  if pkg_ver =? EFUSE_RD_CHIP_VER_PKG_ESP32D0WDQ6 then (board_M5TimerCam, [])
  else if pkg_ver =? EFUSE_RD_CHIP_VER_PKG_ESP32PICOD4 then
    ((if gpio2 then (if gpio34 then board_M5Atom else board_M5AtomU)
      else board_M5StampPico),
     [(2, input_pullup); (34, input); (2, input_pulldown)])
  else if pkg_ver =? 6 then (board_M5AtomPsram, [])
  else (match arduino_board with Some b => b | None => board_unknown end, []).

Definition internal_i2c (b : board_t) : i2c_setup :=
  match b with
  | board_M5Atom | board_M5AtomU | board_M5AtomPsram =>
      {| port := 1; pin_sda := 25; pin_scl := 21 |}
  | board_M5TimerCam => {| port := 1; pin_sda := 12; pin_scl := 14 |}
  | board_M5Stack => {| port := 0; pin_sda := 21; pin_scl := 22 |}
  | _ => {| port := 1; pin_sda := 21; pin_scl := 22 |}
  end.

Definition external_i2c (b : board_t) : i2c_setup :=
  match b with
  | board_M5Stack => {| port := 0; pin_sda := 21; pin_scl := 22 |}
  | board_M5Paper => {| port := 0; pin_sda := 25; pin_scl := 32 |}
  | board_M5Atom | board_M5AtomU | board_M5AtomPsram =>
      {| port := 0; pin_sda := 26; pin_scl := 32 |}
  | board_M5TimerCam => {| port := 0; pin_sda := 4; pin_scl := 13 |}
  | _ => {| port := 0; pin_sda := 32; pin_scl := 33 |}
  end.

Definition _check_boardtype (b : board_t) (pkg_ver : Z) (gpio2 gpio34 : bool)
  : check_result :=
  let '(b', modes) :=
    match b with
    | board_unknown => detect_board pkg_ver gpio2 gpio34
    | _ => (b, [])
    end in
  {| board := b'; pin_modes := modes;
     In_I2C := internal_i2c b'; Ex_I2C := external_i2c b' |}.
End CheckBoard.
End Unified.

(** The narrowest [uint_fast8_t] that the language allows. *)
Definition fast8_min : Unified.Fast8 := {| Unified.fast8_bits := 8 |}.

(** A pointer to the start of the string ["src/main.cpp"] and one to the
    start of ["main.cpp"]. *)
Definition sample_path : Log.cptr :=
  {| Log.before := []; Log.after := list_ascii_of_string "src/main.cpp" |}.
Definition sample_name : Log.cptr :=
  {| Log.before := []; Log.after := list_ascii_of_string "main.cpp" |}.

(** ** Facts about [size_t] arithmetic *)

Section SizeTFacts.
Context `{SizeT}.

Lemma size_modulus_eq :
  0 < PTRDIFF_MAX -> 2 ^ size_bits = 2 * PTRDIFF_MAX + 2.
Proof.
  unfold PTRDIFF_MAX. intros Hpos.
  assert (Hw : 0 <= size_bits - 1).
  { destruct (Z.lt_ge_cases (size_bits - 1) 0) as [Hneg|]; [|done].
    rewrite Z.pow_neg_r in Hpos by done. lia. }
  replace size_bits with (Z.succ (size_bits - 1)) at 1 by lia.
  rewrite Z.pow_succ_r by done. lia.
Qed.

Lemma to_size_t_small z : 0 <= z < 2 ^ size_bits -> to_size_t z = z.
Proof. intros. unfold to_size_t. by apply Z.mod_small. Qed.

Lemma to_size_t_neg z :
  - 2 ^ size_bits <= z < 0 -> to_size_t z = z + 2 ^ size_bits.
Proof.
  intros. unfold to_size_t. symmetry.
  apply (Z.mod_unique_pos _ _ (-1)); lia.
Qed.

Lemma to_size_t_over z :
  2 ^ size_bits <= z < 2 * 2 ^ size_bits -> to_size_t z = z - 2 ^ size_bits.
Proof.
  intros. unfold to_size_t. symmetry.
  apply (Z.mod_unique_pos _ _ 1); lia.
Qed.

Section Capacity.
Variable cap : Z.
Hypothesis cap_range : 0 < cap <= PTRDIFF_MAX.

Lemma cap_modulus : 2 * cap < 2 ^ size_bits.
Proof. rewrite size_modulus_eq by lia. lia. Qed.

Lemma size_add_small a b :
  0 <= a <= cap -> 0 <= b <= cap -> a +% b = a + b.
Proof.
  intros. pose proof cap_modulus. unfold size_add.
  apply to_size_t_small. lia.
Qed.

Lemma size_sub_small a b : 0 <= b <= a -> a <= 2 * cap -> a -% b = a - b.
Proof.
  intros. pose proof cap_modulus. unfold size_sub.
  apply to_size_t_small. lia.
Qed.

(** [(x - 1 + cap) % cap]: the difference wraps around at [x = 0] and
    the sum wraps back. *)
Lemma dec_mod x :
  0 <= x < cap -> (x -% 1 +% cap) mod cap = if x =? 0 then cap - 1 else x - 1.
Proof.
  intros Hx. pose proof cap_modulus as Hm. unfold size_add, size_sub.
  destruct (Z.eqb_spec x 0) as [->|Hne].
  - rewrite (to_size_t_neg (0 - 1)) by lia. rewrite to_size_t_over by lia.
    replace (0 - 1 + 2 ^ size_bits + cap - 2 ^ size_bits) with (cap - 1) by lia.
    apply Z.mod_small. lia.
  - rewrite (to_size_t_small (x - 1)) by lia.
    rewrite to_size_t_small by lia.
    replace (x - 1 + cap) with (x - 1 + 1 * cap) by lia.
    rewrite Z.mod_add by lia. apply Z.mod_small. lia.
Qed.

Lemma add_mod x i :
  0 <= x < cap -> 0 <= i <= cap ->
  (x +% i) mod cap = if x + i <? cap then x + i else x + i - cap.
Proof.
  intros Hx Hi. rewrite size_add_small by lia.
  destruct (Z.ltb_spec (x + i) cap).
  - apply Z.mod_small. lia.
  - symmetry. apply (Z.mod_unique_pos _ _ 1); lia.
Qed.

Lemma inc_mod x :
  0 <= x < cap -> (x +% 1) mod cap = if x + 1 =? cap then 0 else x + 1.
Proof.
  intros Hx. rewrite add_mod by lia.
  destruct (Z.ltb_spec (x + 1) cap), (Z.eqb_spec (x + 1) cap); lia.
Qed.

Lemma plain_mod x :
  0 <= x < 2 * cap -> x mod cap = if x <? cap then x else x - cap.
Proof.
  intros Hx. destruct (Z.ltb_spec x cap).
  - apply Z.mod_small. lia.
  - symmetry. apply (Z.mod_unique_pos _ _ 1); lia.
Qed.
End Capacity.
End SizeTFacts.

(** ** Facts about the container *)

Section VectorFacts.
Context {T : Type} `{ValueInit T}.
Implicit Types (x : T) (l : list T) (i j : Z).

Lemma vec_get_set_eq l i x :
  0 <= i < Z.of_nat (length l) -> vec_get (vec_set l i x) i = x.
Proof.
  intros. unfold vec_get, vec_set.
  rewrite list_lookup_insert_eq by lia. done.
Qed.

Lemma vec_get_set_ne l i j x :
  0 <= i -> 0 <= j -> i <> j -> vec_get (vec_set l i x) j = vec_get l j.
Proof.
  intros. unfold vec_get, vec_set.
  rewrite list_lookup_insert_ne by lia. done.
Qed.

Lemma vec_set_length l i x : length (vec_set l i x) = length l.
Proof. apply length_insert. Qed.

Lemma vec_get_lookup l i :
  0 <= i < Z.of_nat (length l) -> l !! Z.to_nat i = Some (vec_get l i).
Proof.
  intros. unfold vec_get.
  destruct (lookup_lt_is_Some_2 l (Z.to_nat i)) as [y ->]; [lia|done].
Qed.

End VectorFacts.

(** Reading a slot after a write to a slot. *)
Ltac vec_rw :=
  repeat match goal with
    | |- context [vec_get (vec_set ?l ?i ?x) ?j] =>
        first [ rewrite (vec_get_set_ne l i j x) by lia
              | replace j with i by lia; rewrite (vec_get_set_eq l i x) by lia ]
    end.

(** Case analysis on the comparisons of a goal. *)
Ltac split_tests :=
  repeat match goal with
    | |- context [Z.eqb ?a ?b] => destruct (Z.eqb_spec a b)
    | |- context [Z.ltb ?a ?b] => destruct (Z.ltb_spec a b)
    | |- context [Z.leb ?a ?b] => destruct (Z.leb_spec a b)
    | _ : context [Z.eqb ?a ?b] |- _ => destruct (Z.eqb_spec a b)
    | _ : context [Z.ltb ?a ?b] |- _ => destruct (Z.ltb_spec a b)
    | _ : context [Z.leb ?a ?b] |- _ => destruct (Z.leb_spec a b)
    end.

(** Closes a goal about slots once the index comparisons are decided. *)
Ltac slots :=
  split_tests; first [ exfalso; lia | vec_rw; first [ done | f_equal; lia ] ].

(** The index computations of the code, without the machine arithmetic. *)
Ltac mod_arith b :=
  repeat first
    [ rewrite (dec_mod (_cap b)) by lia
    | rewrite (inc_mod (_cap b)) by lia
    | rewrite (add_mod (_cap b)) by lia
    | rewrite (size_sub_small (_cap b)) by lia
    | rewrite (size_add_small (_cap b)) by lia ].

(** The two kinds of states: full (then [_head = _tail]) and not full. *)
Ltac full_cases b Hf :=
  destruct (_full b) eqn:Hfull; [specialize (Hf eq_refl)|clear Hf].

Section BufferFacts.
Context `{SizeT} {T : Type} `{ValueInit T}.
Implicit Types (b a o : @CircularBuffer T) (v x : T) (l : list T) (i j n : Z).

Lemma size_cases b :
  wf b ->
  size b = if _full b then _cap b
           else if _tail b <=? _head b then _head b - _tail b
                else _cap b + _head b - _tail b.
Proof.
  intros [Hc Hl Hh Ht Hf]. unfold size, full.
  destruct (_full b); [done|].
  destruct (Z.leb_spec (_tail b) (_head b)); by mod_arith b.
Qed.

Lemma size_range b : wf b -> 0 <= size b <= _cap b.
Proof.
  intros Hwf. rewrite size_cases by done. destruct Hwf as [Hc Hl Hh Ht Hf].
  destruct (_full b); split_tests; lia.
Qed.

Lemma empty_iff_size b : wf b -> empty b = true <-> size b = 0.
Proof.
  intros Hwf. rewrite size_cases by done. destruct Hwf as [Hc Hl Hh Ht Hf].
  unfold empty, full. destruct (_full b); simpl; split_tests; split; (lia || done).
Qed.

Lemma full_iff_size b : wf b -> full b = true <-> size b = capacity b.
Proof.
  intros Hwf. rewrite size_cases by done. destruct Hwf as [Hc Hl Hh Ht Hf].
  unfold full, capacity. destruct (_full b); split_tests; split; (lia || done).
Qed.

Lemma empty_false_size b : wf b -> empty b = false <-> 0 < size b.
Proof.
  intros Hwf. pose proof (empty_iff_size b Hwf). pose proof (size_range b Hwf).
  destruct (empty b); split; intros; try done; lia.
Qed.

(** *** The invariant is kept *)

Lemma make_wf n b : make n = Some b -> wf b.
Proof.
  unfold make. intros Hmk.
  destruct (Z.leb_spec n 0); [done|].
  destruct (Z.ltb_spec PTRDIFF_MAX n); [done|].
  injection Hmk as <-. split; simpl; try lia; try done.
  rewrite length_replicate. lia.
Qed.

Lemma make_Some n :
  0 < n <= PTRDIFF_MAX ->
  make n = Some {| _buf := replicate (Z.to_nat n) value_init; _cap := n;
                   _head := 0; _tail := 0; _full := false |}.
Proof.
  intros. unfold make.
  destruct (Z.leb_spec n 0); [lia|].
  destruct (Z.ltb_spec PTRDIFF_MAX n); [lia|done].
Qed.

Lemma wfb_wf b : wfb b = true -> wf b.
Proof.
  unfold wfb. intros Hb. repeat (apply andb_prop in Hb as [Hb ?]).
  split; try lia.
  intros Hfull. rewrite Hfull in *. simpl in *. lia.
Qed.

Lemma clear_wf b : wf b -> wf (clear b).
Proof. intros [Hc Hl Hh Ht Hf]. split; simpl; try lia; done. Qed.

Lemma push_back_wf v b : wf b -> wf (push_back v b).
Proof.
  intros [Hc Hl Hh Ht Hf]. split; simpl.
  - done.
  - by rewrite vec_set_length.
  - mod_arith b. split_tests; lia.
  - destruct (_full b); mod_arith b; split_tests; lia.
  - intros Heq. by apply Z.eqb_eq in Heq.
Qed.

Lemma push_front_wf v b : wf b -> wf (push_front v b).
Proof.
  intros [Hc Hl Hh Ht Hf]. split; simpl.
  - done.
  - by rewrite vec_set_length.
  - destruct (_full b); mod_arith b; split_tests; lia.
  - mod_arith b. split_tests; lia.
  - intros Heq. by apply Z.eqb_eq in Heq.
Qed.

Lemma pop_front_wf b : wf b -> wf (pop_front b).
Proof.
  intros Hwf. unfold pop_front. destruct (empty b); simpl; [done|].
  destruct Hwf as [Hc Hl Hh Ht Hf]. split; simpl; try done.
  mod_arith b. split_tests; lia.
Qed.

Lemma pop_back_wf b : wf b -> wf (pop_back b).
Proof.
  intros Hwf. unfold pop_back. destruct (empty b); simpl; [done|].
  destruct Hwf as [Hc Hl Hh Ht Hf]. split; simpl; try done.
  mod_arith b. split_tests; lia.
Qed.

Lemma fill_wf v b : wf b -> wf (fill v b).
Proof.
  intros [Hc Hl Hh Ht Hf]. split; simpl; try lia; try done.
  by rewrite length_replicate.
Qed.

Lemma assign_loop_wf k first b : wf b -> wf (assign_loop k first b).
Proof.
  revert first b. induction k as [|k IH]; intros [|x first] b Hwf; simpl; try done.
  apply IH. by apply push_back_wf.
Qed.

Lemma assign_wf range b : wf b -> wf (assign range b).
Proof. intros. apply assign_loop_wf. by apply clear_wf. Qed.

Lemma assign_fill_loop_wf k v b : wf b -> wf (assign_fill_loop k v b).
Proof.
  revert b. induction k as [|k IH]; intros b Hwf; simpl; [done|].
  apply IH. by apply push_back_wf.
Qed.

Lemma assign_fill_wf n v b : wf b -> wf (assign_fill n v b).
Proof. intros. apply assign_fill_loop_wf. by apply clear_wf. Qed.

Lemma read_buffer b out num : (read b out num).1.1 = b.
Proof. unfold read. repeat case_match; done. Qed.

Lemma swap_wf a o : wf a -> wf o -> wf (swap a o).1 /\ wf (swap a o).2.
Proof. intros [] []. split; split; done. Qed.

Lemma reachable_wf b : reachable b -> wf b.
Proof.
  induction 1;
    eauto using make_wf, push_back_wf, push_front_wf, pop_front_wf, pop_back_wf,
      clear_wf, fill_wf, assign_wf, assign_fill_wf.
  - by rewrite read_buffer.
  - by apply swap_wf.
  - by apply swap_wf.
Qed.
(** *** Logical contents *)

Lemma index_phys b i :
  wf b -> 0 <= i <= _cap b ->
  index b i = vec_get (_buf b) (if _tail b + i <? _cap b then _tail b + i
                                else _tail b + i - _cap b).
Proof. intros [Hc Hl Hh Ht Hf] Hi. unfold index. by mod_arith b. Qed.

Lemma contents_length b : length (contents b) = Z.to_nat (size b).
Proof. unfold contents. by rewrite length_fmap, length_seqZ. Qed.

Lemma contents_lookup b (k : nat) :
  (k < Z.to_nat (size b))%nat -> contents b !! k = Some (index b (Z.of_nat k)).
Proof.
  intros. unfold contents.
  rewrite list_lookup_fmap, lookup_seqZ_lt by lia. done.
Qed.

Lemma contents_lookup_ge b (k : nat) :
  (Z.to_nat (size b) <= k)%nat -> contents b !! k = None.
Proof. intros. apply lookup_ge_None_2. by rewrite contents_length. Qed.

(** A list is the contents of a buffer when it has its size and agrees
    with [operator[]] at every index. *)
Lemma contents_intro b l :
  length l = Z.to_nat (size b) ->
  (forall k : nat, (k < length l)%nat -> l !! k = Some (index b (Z.of_nat k))) ->
  contents b = l.
Proof.
  intros Hlen Hl. apply list_eq. intros k.
  destruct (Nat.lt_ge_cases k (length l)).
  - rewrite Hl by done. apply contents_lookup. lia.
  - rewrite contents_lookup_ge by lia. symmetry. by apply lookup_ge_None_2.
Qed.

Lemma size_push_back v b :
  wf b -> size (push_back v b) = if full b then _cap b else size b + 1.
Proof.
  intros Hwf. rewrite (size_cases _ (push_back_wf v b Hwf)), (size_cases b Hwf).
  destruct Hwf as [Hc Hl Hh Ht Hf]. unfold full. simpl.
  full_cases b Hf; mod_arith b; split_tests; lia.
Qed.

Lemma size_push_front v b :
  wf b -> size (push_front v b) = if full b then _cap b else size b + 1.
Proof.
  intros Hwf. rewrite (size_cases _ (push_front_wf v b Hwf)), (size_cases b Hwf).
  destruct Hwf as [Hc Hl Hh Ht Hf]. unfold full. simpl.
  full_cases b Hf; mod_arith b; split_tests; lia.
Qed.
Lemma contents_push_back v b :
  wf b ->
  contents (push_back v b)
  = (if full b then drop 1 (contents b) else contents b) ++ [v].
Proof.
  intros Hwf. pose proof (push_back_wf v b Hwf) as Hwf'.
  pose proof (size_push_back v b Hwf) as Hsz.
  pose proof (size_range b Hwf) as Hr.
  pose proof (size_cases b Hwf) as Hsc.
  assert (Hlen : length ((if full b then drop 1 (contents b) else contents b) ++ [v])
                 = Z.to_nat (size (push_back v b))).
  { rewrite length_app, Hsz. simpl. unfold full in *.
    destruct (Hwf) as [Hc Hl Hh Ht Hf].
    full_cases b Hf; rewrite ?length_drop, contents_length; lia. }
  apply contents_intro; [done|].
  intros k Hk. rewrite Hlen, Hsz in Hk.
  rewrite (index_phys _ _ Hwf') by (simpl; unfold full in *; destruct (_full b); lia).
  destruct (Hwf) as [Hc Hl Hh Ht Hf]. unfold full in *. simpl.
  full_cases b Hf.
  - destruct (decide (Z.of_nat k = _cap b - 1)) as [Hlast|Hlast].
    + rewrite lookup_app_r by (rewrite length_drop, contents_length; lia).
      rewrite length_drop, contents_length.
      replace (k - (Z.to_nat (size b) - 1))%nat with 0%nat by lia. simpl.
      f_equal. mod_arith b. slots.
    + rewrite lookup_app_l by (rewrite length_drop, contents_length; lia).
      rewrite lookup_drop, contents_lookup by lia.
      rewrite index_phys by (done || lia).
      f_equal. mod_arith b. slots.
  - destruct (decide (Z.of_nat k = size b)) as [Hlast|Hlast].
    + rewrite lookup_app_r by (rewrite contents_length; lia).
      rewrite contents_length.
      replace (k - Z.to_nat (size b))%nat with 0%nat by lia. simpl.
      f_equal. slots.
    + rewrite lookup_app_l by (rewrite contents_length; lia).
      rewrite contents_lookup by lia.
      rewrite index_phys by (done || lia).
      f_equal. slots.
Qed.

Lemma contents_push_front v b :
  wf b ->
  contents (push_front v b)
  = v :: (if full b then take (Z.to_nat (size b - 1)) (contents b) else contents b).
Proof.
  intros Hwf. pose proof (push_front_wf v b Hwf) as Hwf'.
  pose proof (size_push_front v b Hwf) as Hsz.
  pose proof (size_range b Hwf) as Hr.
  pose proof (size_cases b Hwf) as Hsc.
  set (rest := if full b then take (Z.to_nat (size b - 1)) (contents b) else contents b).
  assert (Hrest : length rest = Z.to_nat (size (push_front v b) - 1)).
  { rewrite Hsz. subst rest. unfold full in *. destruct (Hwf) as [Hc Hl Hh Ht Hf].
    full_cases b Hf; rewrite ?length_take, contents_length; lia. }
  assert (Hpos : 0 < size (push_front v b)).
  { rewrite Hsz. destruct (Hwf) as [Hc _ _ _ _]. destruct (full b); lia. }
  apply contents_intro; [simpl; lia|].
  intros k Hk. simpl in Hk. rewrite Hrest in Hk.
  rewrite (index_phys _ _ Hwf') by (pose proof (size_range _ Hwf'); simpl in *; lia).
  rewrite Hsz in Hk, Hpos. subst rest.
  destruct (Hwf) as [Hc Hl Hh Ht Hf]. unfold full in *. simpl.
  destruct k as [|k]; simpl.
  - f_equal. mod_arith b. slots.
  - full_cases b Hf.
    + rewrite lookup_take_lt, contents_lookup by lia.
      rewrite index_phys by (done || lia).
      f_equal. mod_arith b. slots.
    + rewrite contents_lookup by lia.
      rewrite index_phys by (done || lia).
      f_equal. mod_arith b. slots.
Qed.

Lemma contents_empty b : wf b -> empty b = true -> contents b = [].
Proof.
  intros Hwf He. apply (empty_iff_size b Hwf) in He.
  apply length_zero_iff_nil. rewrite contents_length. lia.
Qed.

Lemma size_pop_front b :
  wf b -> size (pop_front b) = if empty b then 0 else size b - 1.
Proof.
  intros Hwf. pose proof (pop_front_wf b Hwf) as Hwf'.
  pose proof (empty_iff_size b Hwf) as He.
  rewrite (size_cases _ Hwf'). unfold pop_front in *.
  destruct (empty b) eqn:Hemp; simpl.
  { rewrite <- (size_cases _ Hwf). tauto. }
  apply (empty_false_size b Hwf) in Hemp.
  pose proof (size_cases b Hwf) as Hsc.
  destruct (Hwf) as [Hc Hl Hh Ht Hf]. full_cases b Hf; mod_arith b; split_tests; lia.
Qed.

Lemma size_pop_back b :
  wf b -> size (pop_back b) = if empty b then 0 else size b - 1.
Proof.
  intros Hwf. pose proof (pop_back_wf b Hwf) as Hwf'.
  pose proof (empty_iff_size b Hwf) as He.
  rewrite (size_cases _ Hwf'). unfold pop_back in *.
  destruct (empty b) eqn:Hemp; simpl.
  { rewrite <- (size_cases _ Hwf). tauto. }
  apply (empty_false_size b Hwf) in Hemp.
  pose proof (size_cases b Hwf) as Hsc.
  destruct (Hwf) as [Hc Hl Hh Ht Hf]. full_cases b Hf; mod_arith b; split_tests; lia.
Qed.

Lemma contents_pop_front b :
  wf b -> contents (pop_front b) = drop 1 (contents b).
Proof.
  intros Hwf. pose proof (pop_front_wf b Hwf) as Hwf'.
  pose proof (size_pop_front b Hwf) as Hsz.
  pose proof (size_range b Hwf) as Hr.
  destruct (empty b) eqn:Hemp.
  { unfold pop_front. rewrite Hemp. simpl. by rewrite contents_empty. }
  pose proof Hemp as Hpos. apply (empty_false_size b Hwf) in Hpos.
  apply contents_intro.
  { rewrite length_drop, contents_length. lia. }
  intros k Hk. rewrite length_drop, contents_length in Hk.
  rewrite lookup_drop, contents_lookup by lia.
  rewrite (index_phys _ _ Hwf'), (index_phys _ _ Hwf)
    by (unfold pop_front; rewrite ?Hemp; simpl; lia).
  pose proof (size_cases b Hwf) as Hsc.
  destruct (Hwf) as [Hc Hl Hh Ht Hf].
  unfold pop_front. rewrite Hemp. simpl.
  f_equal. mod_arith b. slots.
Qed.

Lemma contents_pop_back b :
  wf b -> contents (pop_back b) = take (Z.to_nat (size b - 1)) (contents b).
Proof.
  intros Hwf. pose proof (pop_back_wf b Hwf) as Hwf'.
  pose proof (size_pop_back b Hwf) as Hsz.
  pose proof (size_range b Hwf) as Hr.
  destruct (empty b) eqn:Hemp.
  { unfold pop_back. rewrite Hemp. simpl. by rewrite contents_empty, take_nil. }
  pose proof Hemp as Hpos. apply (empty_false_size b Hwf) in Hpos.
  apply contents_intro.
  { rewrite length_take, contents_length. lia. }
  intros k Hk. rewrite length_take, contents_length in Hk.
  rewrite lookup_take_lt, contents_lookup by lia.
  rewrite (index_phys _ _ Hwf'), (index_phys _ _ Hwf)
    by (unfold pop_back; rewrite ?Hemp; simpl; lia).
  unfold pop_back. rewrite Hemp. done.
Qed.

Lemma contents_clear b : wf b -> contents (clear b) = [].
Proof.
  intros Hwf. apply contents_empty; [by apply clear_wf|done].
Qed.

Lemma front_contents b : wf b -> front b = head (contents b).
Proof.
  intros Hwf. unfold front. rewrite head_lookup.
  destruct (empty b) eqn:Hemp; simpl.
  { by rewrite contents_empty. }
  apply (empty_false_size b Hwf) in Hemp.
  pose proof (size_range b Hwf) as Hr.
  rewrite contents_lookup, index_phys by (done || lia).
  destruct (Hwf) as [Hc Hl Hh Ht Hf]. f_equal. slots.
Qed.

Lemma back_contents b : wf b -> back b = last (contents b).
Proof.
  intros Hwf. unfold back. rewrite last_lookup, contents_length.
  destruct (empty b) eqn:Hemp; simpl.
  { by rewrite contents_empty. }
  apply (empty_false_size b Hwf) in Hemp.
  pose proof (size_range b Hwf) as Hr. pose proof (size_cases b Hwf) as Hsc.
  rewrite contents_lookup, index_phys by (done || lia).
  destruct (Hwf) as [Hc Hl Hh Ht Hf]. f_equal.
  full_cases b Hf; mod_arith b; slots.
Qed.

Lemma at_contents b i : wf b -> 0 <= i -> at_ b i = contents b !! Z.to_nat i.
Proof.
  intros Hwf Hi. unfold at_.
  pose proof (size_range b Hwf) as Hr.
  destruct (empty b) eqn:Hemp; simpl.
  { by rewrite contents_empty. }
  destruct (Z.ltb_spec i (size b)).
  - rewrite contents_lookup by lia. unfold index. by rewrite Z2Nat.id.
  - by rewrite contents_lookup_ge by lia.
Qed.
(** *** Assignment *)

Lemma full_contents b :
  wf b -> full b = (Z.of_nat (length (contents b)) =? capacity b).
Proof.
  intros Hwf. pose proof (full_iff_size b Hwf) as Hf.
  pose proof (size_range b Hwf) as Hr. rewrite contents_length.
  destruct (full b), (Z.eqb_spec (Z.of_nat (Z.to_nat (size b))) (capacity b));
    try done.
  - assert (size b = capacity b) by tauto. lia.
  - assert (size b = capacity b) as Hsz by lia. apply Hf in Hsz. done.
Qed.

Lemma empty_contents b :
  wf b -> empty b = (Z.of_nat (length (contents b)) =? 0).
Proof.
  intros Hwf. pose proof (empty_iff_size b Hwf) as He.
  pose proof (size_range b Hwf) as Hr. rewrite contents_length.
  destruct (empty b), (Z.eqb_spec (Z.of_nat (Z.to_nat (size b))) 0); try done.
  - assert (size b = 0) by tauto. lia.
  - assert (size b = 0) as Hsz by lia. apply He in Hsz. done.
Qed.

Lemma assign_loop_contents (k : nat) first b :
  wf b ->
  size b + Z.of_nat (min k (length first)) <= _cap b ->
  contents (assign_loop k first b) = contents b ++ take k first.
Proof.
  revert first b. induction k as [|k IH]; intros [|x first] b Hwf Hroom; simpl;
    rewrite ?app_nil_r; try done.
  simpl in Hroom.
  assert (full b = false) as Hnf.
  { pose proof (full_iff_size b Hwf) as Hf. unfold capacity in Hf.
    destruct (full b); [|done]. assert (size b = _cap b) by tauto. lia. }
  rewrite IH.
  - rewrite contents_push_back, Hnf by done. by rewrite <- app_assoc.
  - by apply push_back_wf.
  - rewrite size_push_back, Hnf by done. simpl. lia.
Qed.

Lemma size_clear b : wf b -> size (clear b) = 0.
Proof.
  intros Hwf. apply (empty_iff_size _ (clear_wf b Hwf)). done.
Qed.

Lemma assign_contents range b :
  wf b ->
  Z.of_nat (length range) <= PTRDIFF_MAX ->
  contents (assign range b)
  = drop (length range - Z.to_nat (_cap b)) range.
Proof.
  intros Hwf Hlen. pose proof (clear_wf b Hwf) as Hwf0.
  pose proof (size_clear b Hwf) as Hsz0.
  destruct (Hwf) as [Hc _ _ _ _]. assert (0 < PTRDIFF_MAX) as Hm by lia. apply size_modulus_eq in Hm.
  unfold assign. simpl.
  rewrite (to_size_t_small (Z.of_nat (length range))) by lia.
  destruct (Z.ltb_spec (_cap b) (Z.of_nat (length range))) as [Hlong|Hshort].
  - unfold size_sub. rewrite to_size_t_small by lia.
    rewrite assign_loop_contents by (done || rewrite Hsz0; simpl; lia).
    rewrite contents_clear by done.
    simpl. rewrite take_ge by (rewrite length_drop; lia).
    f_equal. lia.
  - rewrite assign_loop_contents by (done || rewrite Hsz0; simpl; lia).
    rewrite contents_clear by done.
    simpl. rewrite take_ge by lia.
    replace (length range - Z.to_nat (_cap b))%nat with 0%nat by lia. done.
Qed.

(** *** Bulk read *)

Lemma read_spec b out num :
  wf b -> 0 <= num ->
  Z.min num (size b) <= Z.of_nat (length out) ->
  read b out num
  = (b,
     take (Z.to_nat (Z.min num (size b))) (contents b)
       ++ drop (Z.to_nat (Z.min num (size b))) out,
     Z.min num (size b)).
Proof.
  intros Hwf Hnum Hroom. unfold read.
  pose proof (size_range b Hwf) as Hr. pose proof (size_cases b Hwf) as Hsc.
  set (sz := Z.min num (size b)) in *.
  destruct (Z.eqb_spec sz 0) as [Hz|Hnz].
  { by rewrite Hz. }
  destruct (Hwf) as [Hc Hl Hh Ht Hf].
  rewrite (size_sub_small (_cap b)) by lia.
  set (elms := Z.min (_cap b - _tail b) sz).
  assert (Hout : forall (run2 : list T),
    length run2 = Z.to_nat (sz - elms) ->
    (forall k : nat, (k < length run2)%nat ->
       run2 !! k = Some (index b (elms + Z.of_nat k))) ->
    list_inserts (Z.to_nat elms) run2 (copy (_buf b) (_tail b) elms out 0)
    = take (Z.to_nat sz) (contents b) ++ drop (Z.to_nat sz) out).
  { intros run2 Hlen2 Hrun2. apply list_eq. intros k. unfold copy.
    destruct (Nat.lt_ge_cases k (Z.to_nat sz)) as [Hin|Hpast].
    - rewrite lookup_app_l by (rewrite length_take, contents_length; lia).
      rewrite lookup_take_lt, contents_lookup by lia.
      destruct (Nat.lt_ge_cases k (Z.to_nat elms)) as [Hfst|Hsnd].
      + rewrite list_lookup_inserts_lt by lia.
        rewrite list_lookup_inserts
          by (rewrite ?length_take, ?length_drop; lia).
        rewrite lookup_take_lt, lookup_drop by lia.
        rewrite index_phys by (done || lia).
        replace (Z.to_nat (_tail b) + (k - Z.to_nat 0))%nat
          with (Z.to_nat (_tail b + Z.of_nat k)) by lia.
        rewrite vec_get_lookup by lia. f_equal. slots.
      + rewrite list_lookup_inserts
          by (rewrite ?length_inserts; lia).
        rewrite Hrun2 by lia. do 2 f_equal. lia.
    - rewrite lookup_app_r by (rewrite length_take, contents_length; lia).
      rewrite length_take, contents_length, lookup_drop.
      rewrite list_lookup_inserts_ge by lia.
      rewrite list_lookup_inserts_ge by (rewrite length_take, length_drop; lia).
      f_equal. lia. }
  destruct (Z.ltb_spec elms sz) as [Hsplit|Hone].
  - assert (elms = _cap b - _tail b) as Helms by lia.
    rewrite (add_mod (_cap b)) by lia.
    rewrite (size_sub_small (_cap b)), (size_add_small (_cap b)) by lia.
    replace (if _tail b + elms <? _cap b then _tail b + elms
             else _tail b + elms - _cap b) with 0 by (split_tests; lia).
    f_equal; [|lia]. f_equal. unfold copy at 1. apply Hout.
    + rewrite length_take, length_drop. lia.
    + intros k Hk. rewrite length_take, length_drop in Hk.
      rewrite lookup_take_lt, lookup_drop by lia.
      rewrite index_phys by (done || lia).
      replace (Z.to_nat 0 + k)%nat with (Z.to_nat (Z.of_nat k)) by lia.
      rewrite vec_get_lookup by lia. f_equal. slots.
  - assert (elms = sz) as Helms by lia.
    f_equal; [|lia]. f_equal.
    rewrite <- (Hout []); [done|simpl; lia|simpl; intros; lia].
Qed.
(** *** Iteration *)

Lemma end_pos this b :
  wf b -> _pos (end_ this b) = _pos (begin_ this b) + size b.
Proof.
  intros Hwf. pose proof (size_range b Hwf). destruct Hwf as [Hc Hl Hh Ht Hf].
  simpl. by mod_arith b.
Qed.

Lemma iter_eqb_pos this p q :
  iter_eqb {| _buffer := this; _pos := p |} {| _buffer := this; _pos := q |}
  = (p =? q).
Proof. unfold iter_eqb. simpl. by rewrite Nat.eqb_refl. Qed.

(** The loop started at logical position [i] visits the elements from [i]
    on, as soon as the bound covers the [m] positions left. *)
Lemma traverse_from this b (m : nat) :
  wf b ->
  forall i (fuel : nat),
    0 <= i -> i + Z.of_nat m = size b -> (m <= fuel)%nat ->
    traverse fuel b {| _buffer := this; _pos := _tail b + i |} (end_ this b)
    = Some (drop (Z.to_nat i) (contents b)).
Proof.
  intros Hwf. pose proof (size_range b Hwf) as Hr.
  destruct (Hwf) as [Hc Hl Hh Ht Hf]. pose proof (cap_modulus _ Hc) as Hm.
  induction m as [|m IH]; intros i fuel Hi Him Hfuel.
  - assert (i = size b) as -> by lia.
    destruct fuel; simpl; unfold end_; rewrite iter_eqb_pos;
      rewrite (size_add_small (_cap b)), Z.eqb_refl by lia;
      by rewrite drop_ge by (rewrite contents_length; lia).
  - destruct fuel as [|fuel]; [lia|]. simpl.
    unfold end_ at 1. rewrite iter_eqb_pos.
    rewrite (size_add_small (_cap b)) by lia.
    destruct (Z.eqb_spec (_tail b + i) (_tail b + size b)); [lia|].
    unfold iter_incr. simpl.
    unfold size_add at 1. rewrite to_size_t_small by lia.
    replace (_tail b + i + 1) with (_tail b + (i + 1)) by lia.
    rewrite IH by lia. simpl. f_equal.
    replace (Z.to_nat (i + 1)) with (S (Z.to_nat i)) by lia.
    symmetry. apply drop_S.
    rewrite contents_lookup by lia. f_equal.
    rewrite index_phys by (done || lia).
    unfold iter_deref, capacity. simpl.
    rewrite (plain_mod (_cap b)) by lia. slots.
Qed.

Lemma traverse_all this b (fuel : nat) :
  wf b -> (Z.to_nat (size b) <= fuel)%nat ->
  traverse fuel b (begin_ this b) (end_ this b) = Some (contents b).
Proof.
  intros Hwf Hfuel. pose proof (size_range b Hwf) as Hr.
  pose proof (traverse_from this b (Z.to_nat (size b)) Hwf 0 fuel) as Hgo.
  rewrite Z.add_0_r in Hgo. apply Hgo; lia.
Qed.

(** The reverse loop whose base iterator stands at logical position [k]
    visits the [k] elements before it, last first. *)
Lemma rtraverse_from this b (k : nat) :
  wf b ->
  forall fuel : nat,
    Z.of_nat k <= size b -> (k <= fuel)%nat ->
    rtraverse fuel b
      {| current := {| _buffer := this; _pos := _tail b + Z.of_nat k |} |}
      (rend this b)
    = Some (reverse (take k (contents b))).
Proof.
  intros Hwf. pose proof (size_range b Hwf) as Hr.
  destruct (Hwf) as [Hc Hl Hh Ht Hf]. pose proof (cap_modulus _ Hc) as Hm.
  induction k as [|k IH]; intros fuel Hk Hfuel.
  - rewrite Z.add_0_r.
    destruct fuel; simpl; unfold rev_eqb, rend, begin_; simpl;
      by rewrite iter_eqb_pos, Z.eqb_refl.
  - destruct fuel as [|fuel]; [lia|]. simpl.
    unfold rev_eqb, rend, begin_ at 1. simpl. rewrite iter_eqb_pos.
    destruct (Z.eqb_spec (_tail b + Z.of_nat (S k)) (_tail b)); [lia|].
    unfold rev_incr, rev_deref, iter_decr. simpl.
    rewrite (size_sub_small (_cap b)) by lia.
    replace (_tail b + Z.of_nat (S k) - 1) with (_tail b + Z.of_nat k) by lia.
    rewrite IH by lia. simpl. f_equal.
    assert (contents b !! k = Some (index b (Z.of_nat k))) as Hlk
      by (apply contents_lookup; lia).
    rewrite (take_S_r _ _ _ Hlk), reverse_snoc. f_equal.
    rewrite index_phys by (done || lia).
    unfold iter_deref, capacity. simpl.
    rewrite (plain_mod (_cap b)) by lia. slots.
Qed.

Lemma rtraverse_all this b (fuel : nat) :
  wf b -> (Z.to_nat (size b) <= fuel)%nat ->
  rtraverse fuel b (rbegin this b) (rend this b) = Some (reverse (contents b)).
Proof.
  intros Hwf Hfuel. pose proof (size_range b Hwf) as Hr.
  pose proof (rtraverse_from this b (Z.to_nat (size b)) Hwf fuel) as Hgo.
  rewrite take_ge in Hgo by (rewrite contents_length; lia).
  rewrite <- Hgo by lia. unfold rbegin, end_.
  destruct (Hwf) as [Hc Hl Hh Ht Hf].
  rewrite (size_add_small (_cap b)) by lia. do 3 f_equal. lia.
Qed.
(** *** Every vector access is inside the vector *)

Lemma head_in_bounds b : wf b -> 0 <= _head b < Z.of_nat (length (_buf b)).
Proof. intros [Hc Hl Hh Ht Hf]. lia. Qed.

Lemma tail_in_bounds b : wf b -> 0 <= _tail b < Z.of_nat (length (_buf b)).
Proof. intros [Hc Hl Hh Ht Hf]. lia. Qed.

Lemma slot_in_bounds b i :
  wf b -> 0 <= i mod _cap b < Z.of_nat (length (_buf b)).
Proof. intros [Hc Hl Hh Ht Hf]. rewrite Hl. apply Z.mod_pos_bound. lia. Qed.

Lemma read_in_bounds b num :
  wf b -> 0 <= num ->
  let sz := Z.min num (size b) in
  let elms := Z.min (_cap b -% _tail b) sz in
  _tail b + elms <= Z.of_nat (length (_buf b))
  /\ (elms < sz ->
      (_tail b +% elms) mod _cap b + (sz -% elms) <= Z.of_nat (length (_buf b))).
Proof.
  intros Hwf Hnum. pose proof (size_range b Hwf) as Hr.
  destruct Hwf as [Hc Hl Hh Ht Hf]. simpl.
  rewrite (size_sub_small (_cap b) Hc (_cap b)) by lia.
  split; [lia|]. intros Hsplit.
  rewrite (add_mod (_cap b)), (size_sub_small (_cap b)) by lia.
  split_tests; lia.
Qed.
(** *** Running the operations on the represented list *)

Lemma represents_make n b : make n = Some b -> represents b n [].
Proof.
  intros Hmk. pose proof (make_wf n b Hmk) as Hwf. unfold make in Hmk.
  destruct (n <=? 0); [done|]. destruct (PTRDIFF_MAX <? n); [done|].
  injection Hmk as <-. split; [done|]. split; [done|].
  by apply contents_empty.
Qed.

Lemma represents_size b c l : represents b c l -> size b = Z.of_nat (length l).
Proof.
  intros (Hwf & _ & <-). pose proof (size_range b Hwf).
  rewrite contents_length. lia.
Qed.

Lemma represents_full b c l :
  represents b c l -> full b = (Z.of_nat (length l) =? c).
Proof. intros (Hwf & <- & <-). by apply full_contents. Qed.

Lemma represents_empty b c l :
  represents b c l -> empty b = (Z.of_nat (length l) =? 0).
Proof. intros (Hwf & _ & <-). by apply empty_contents. Qed.

Lemma represents_front b c l : represents b c l -> front b = head l.
Proof. intros (Hwf & _ & <-). by apply front_contents. Qed.

Lemma represents_back b c l : represents b c l -> back b = last l.
Proof. intros (Hwf & _ & <-). by apply back_contents. Qed.

Lemma represents_push_back v b c l :
  represents b c l ->
  represents (push_back v b) c
    ((if Z.of_nat (length l) =? c then drop 1 l else l) ++ [v]).
Proof.
  intros Hrep. rewrite <- (represents_full b c l Hrep).
  destruct Hrep as (Hwf & <- & <-).
  split; [by apply push_back_wf|]. split; [done|].
  by apply contents_push_back.
Qed.

Lemma represents_push_front v b c l :
  represents b c l ->
  represents (push_front v b) c
    (v :: (if Z.of_nat (length l) =? c then take (length l - 1) l else l)).
Proof.
  intros Hrep. rewrite <- (represents_full b c l Hrep).
  pose proof (represents_size b c l Hrep) as Hsz.
  destruct Hrep as (Hwf & <- & <-).
  split; [by apply push_front_wf|]. split; [done|].
  rewrite contents_push_front by done.
  destruct (full b); [|done]. do 2 f_equal. rewrite contents_length. lia.
Qed.

Lemma represents_pop_front b c l :
  represents b c l -> represents (pop_front b) c (drop 1 l).
Proof.
  intros (Hwf & <- & <-). split; [by apply pop_front_wf|]. split.
  - unfold pop_front. by destruct (empty b).
  - by apply contents_pop_front.
Qed.

Lemma represents_pop_back b c l :
  represents b c l -> represents (pop_back b) c (take (length l - 1) l).
Proof.
  intros Hrep. pose proof (represents_size b c l Hrep) as Hsz.
  destruct Hrep as (Hwf & <- & <-). split; [by apply pop_back_wf|]. split.
  - unfold pop_back. by destruct (empty b).
  - rewrite contents_pop_back by done. f_equal. rewrite contents_length. lia.
Qed.

Lemma represents_clear b c l : represents b c l -> represents (clear b) c [].
Proof.
  intros (Hwf & <- & <-). split; [by apply clear_wf|]. split; [done|].
  by apply contents_clear.
Qed.
(** *** The capacity never changes *)

Lemma assign_loop_cap (k : nat) first b :
  _cap (assign_loop k first b) = _cap b.
Proof.
  revert first b. induction k as [|k IH]; intros [|x first] b; simpl; try done.
  by rewrite IH.
Qed.

Lemma assign_cap range b : capacity (assign range b) = capacity b.
Proof. unfold capacity, assign. by rewrite assign_loop_cap. Qed.

Lemma assign_fill_loop_cap (k : nat) v b :
  _cap (assign_fill_loop k v b) = _cap b.
Proof.
  revert b. induction k as [|k IH]; intros b; simpl; [done|]. by rewrite IH.
Qed.

Lemma assign_fill_cap n v b : capacity (assign_fill n v b) = capacity b.
Proof. unfold capacity, assign_fill. by rewrite assign_fill_loop_cap. Qed.

Lemma pop_front_cap b : capacity (pop_front b) = capacity b.
Proof. unfold pop_front. by destruct (empty b). Qed.

Lemma pop_back_cap b : capacity (pop_back b) = capacity b.
Proof. unfold pop_back. by destruct (empty b). Qed.

Lemma make_cap n b : make n = Some b -> capacity b = n.
Proof. intros Hmk. by destruct (represents_make n b Hmk) as (_ & ? & _). Qed.
End BufferFacts.

(** ** The documented properties *)

Section Specification.
Context `{SizeT} {T : Type} `{ValueInit T}.
Implicit Types (b : @CircularBuffer T) (v x : T) (l out range : list T).
Implicit Types (i n num : Z) (this fuel : nat).

(** The first [k] elements lie in at most two runs of the vector: from
    [_tail] up to the end of the vector, then from its start. *)
Lemma contents_two_runs b (k : Z) :
  wf b -> 0 <= k <= size b ->
  let elms := Z.min (_cap b - _tail b) k in
  take (Z.to_nat k) (contents b)
  = take (Z.to_nat elms) (drop (Z.to_nat (_tail b)) (_buf b))
      ++ take (Z.to_nat (k - elms)) (_buf b).
Proof.
  intros Hwf Hk elms. pose proof (size_range b Hwf) as Hr.
  destruct (Hwf) as [Hc Hl Hh Ht Hf].
  assert (length (take (Z.to_nat elms) (drop (Z.to_nat (_tail b)) (_buf b)))
          = Z.to_nat elms) as Hlen1 by (rewrite length_take, length_drop; lia).
  apply list_eq. intros j.
  destruct (Nat.lt_ge_cases j (Z.to_nat k)) as [Hin|Hpast].
  - rewrite lookup_take_lt, contents_lookup by lia.
    rewrite index_phys by (done || lia).
    destruct (Nat.lt_ge_cases j (Z.to_nat elms)) as [Hfst|Hsnd].
    + rewrite lookup_app_l by lia.
      rewrite lookup_take_lt, lookup_drop by lia.
      replace (Z.to_nat (_tail b) + j)%nat
        with (Z.to_nat (_tail b + Z.of_nat j)) by lia.
      rewrite vec_get_lookup by lia. f_equal. slots.
    + rewrite lookup_app_r by lia. rewrite Hlen1.
      rewrite lookup_take_lt by lia.
      replace (j - Z.to_nat elms)%nat
        with (Z.to_nat (_tail b + Z.of_nat j - _cap b)) by lia.
      rewrite vec_get_lookup by lia. f_equal. slots.
  - rewrite lookup_take_ge by lia. symmetry. apply lookup_ge_None_2.
    rewrite length_app, Hlen1, length_take. lia.
Qed.

(** C2. On a full buffer [push_back v] drops the front element and appends
    [v]; [push_front v] drops the back element and prepends [v]. The other
    elements keep their order and the buffer stays full. *)
Theorem push_on_full_evicts_opposite_end b v :
  wf b -> size b = capacity b ->
  (exists x rest,
      contents b = x :: rest /\ front b = Some x /\
      contents (push_back v b) = rest ++ [v]) /\
  size (push_back v b) = capacity (push_back v b) /\
  (exists rest y,
      contents b = rest ++ [y] /\ back b = Some y /\
      contents (push_front v b) = v :: rest) /\
  size (push_front v b) = capacity (push_front v b).
Proof.
  intros Hwf Hsz. pose proof Hsz as Hfull. apply (full_iff_size b Hwf) in Hfull.
  destruct (Hwf) as [Hc _ _ _ _]. unfold capacity in *.
  assert (length (contents b) = Z.to_nat (_cap b)) as Hlen
    by (rewrite contents_length; lia).
  repeat split.
  - destruct (contents b) as [|x rest] eqn:Hcont; [simpl in Hlen; lia|].
    exists x, rest. split; [done|]. split.
    + by rewrite front_contents, Hcont.
    + by rewrite contents_push_back, Hfull, Hcont.
  - rewrite size_push_back, Hfull by done. done.
  - destruct (last (contents b)) as [y|] eqn:Hlast.
    + apply last_Some in Hlast as [rest Hrest].
      exists rest, y. split; [done|]. split.
      * by rewrite back_contents, Hrest, last_snoc.
      * rewrite contents_push_front, Hfull by done. f_equal.
        rewrite Hrest in Hlen |- *. rewrite length_app in Hlen. simpl in Hlen.
        rewrite take_app_length'; [done|lia].
    + apply last_None in Hlast. rewrite Hlast in Hlen. simpl in Hlen. lia.
  - rewrite size_push_front, Hfull by done. done.
Qed.

(** C5. In every state that the public operations can produce, the size is
    at most the capacity, [empty()] holds exactly when the size is [0] and
    [full()] holds exactly when the size is the capacity. *)
Theorem reachable_size_laws b :
  reachable b ->
  0 <= size b <= capacity b /\
  (empty b = true <-> size b = 0) /\
  (full b = true <-> size b = capacity b).
Proof.
  intros Hwf%reachable_wf.
  split; [by apply size_range|].
  split; [by apply empty_iff_size|by apply full_iff_size].
Qed.

(** C10. Right after [push_back v], [back()] is [v]; right after
    [push_front v], [front()] is [v]; neither leaves the buffer empty. *)
Theorem push_then_peek b v :
  wf b ->
  back (push_back v b) = Some v /\
  front (push_front v b) = Some v /\
  empty (push_back v b) = false /\
  empty (push_front v b) = false.
Proof.
  intros Hwf. pose proof (push_back_wf v b Hwf) as Hwb.
  pose proof (push_front_wf v b Hwf) as Hwf'.
  pose proof (size_range b Hwf) as Hr. destruct (Hwf) as [Hc _ _ _ _].
  split; [|split; [|split]].
  - by rewrite back_contents, contents_push_back, last_snoc.
  - by rewrite front_contents, contents_push_front.
  - apply (empty_false_size _ Hwb). rewrite size_push_back by done.
    destruct (full b); lia.
  - apply (empty_false_size _ Hwf'). rewrite size_push_front by done.
    destruct (full b); lia.
Qed.

(** [assign] from a range that is longer than the capacity. *)
Lemma assign_truncates range b :
  wf b ->
  Z.of_nat (length range) <= PTRDIFF_MAX ->
  capacity b < Z.of_nat (length range) ->
  let skipped := (length range - Z.to_nat (capacity b))%nat in
  contents (assign range b) = drop skipped range /\
  range = take skipped range ++ contents (assign range b) /\
  size (assign range b) = capacity b /\
  capacity (assign range b) = capacity b.
Proof.
  intros Hwf Hfit Hlong skipped. pose proof (assign_wf range b Hwf) as Hwf'.
  pose proof (assign_contents range b Hwf Hfit) as Hcont.
  destruct (Hwf) as [Hc _ _ _ _]. unfold capacity in *.
  pose proof (assign_cap range b) as Hcap. unfold capacity in Hcap.
  split; [done|]. split; [by rewrite Hcont, take_drop|]. split; [|done].
  pose proof (size_range _ Hwf') as Hr.
  assert (length (contents (assign range b)) = Z.to_nat (_cap b)) as Hlen.
  { rewrite Hcont, length_drop. lia. }
  rewrite contents_length in Hlen. lia.
Qed.

(** C4. A range longer than the capacity, given to the range constructor or
    to [assign], leaves its last [capacity] elements in the buffer, in their
    order: the first [sz - capacity] elements are skipped. (The length of a
    range fits [ptrdiff_t], the type of [last - first].) *)
Theorem range_truncation range :
  Z.of_nat (length range) <= PTRDIFF_MAX ->
  (forall b,
      wf b -> capacity b < Z.of_nat (length range) ->
      let skipped := (length range - Z.to_nat (capacity b))%nat in
      contents (assign range b) = drop skipped range /\
      range = take skipped range ++ contents (assign range b) /\
      size (assign range b) = capacity b /\
      capacity (assign range b) = capacity b) /\
  (forall n b,
      make_range n range = Some b -> n < Z.of_nat (length range) ->
      let skipped := (length range - Z.to_nat n)%nat in
      contents b = drop skipped range /\
      range = take skipped range ++ contents b /\
      size b = n /\
      capacity b = n).
Proof.
  intros Hfit. split.
  - intros b Hwf Hlong. by apply assign_truncates.
  - intros n b Hmk Hlong. unfold make_range in Hmk.
    destruct (make n) as [b0|] eqn:Hb0; [|done]. injection Hmk as <-.
    pose proof (make_wf n b0 Hb0) as Hwf. pose proof (make_cap n b0 Hb0) as Hcap.
    rewrite <- Hcap in Hlong |- *. by apply assign_truncates.
Qed.

(** C6. A buffer constructed from a range that is not longer than its
    capacity is traversed from [begin()] to [end()] as that range. *)
Theorem range_round_trip n range b this fuel :
  make_range n range = Some b ->
  Z.of_nat (length range) <= n ->
  (length range <= fuel)%nat ->
  traverse fuel b (begin_ this b) (end_ this b) = Some range.
Proof.
  intros Hmk Hshort Hfuel. unfold make_range in Hmk.
  destruct (make n) as [b0|] eqn:Hb0; [|done]. injection Hmk as <-.
  pose proof (make_wf n b0 Hb0) as Hwf. pose proof (make_cap n b0 Hb0) as Hcap.
  pose proof (assign_wf range b0 Hwf) as Hwf'.
  destruct (Hwf) as [Hc _ _ _ _]. unfold capacity in Hcap.
  assert (contents (assign range b0) = range) as Hcont.
  { rewrite assign_contents by (done || lia).
    replace (length range - Z.to_nat (_cap b0))%nat with 0%nat by lia. done. }
  rewrite traverse_all; [by rewrite Hcont|done|].
  rewrite <- contents_length, Hcont. done.
Qed.

(** C7. [read] leaves the buffer as it was: every member, hence every
    query, is unchanged, and a second call with the same arguments gives
    the same data and the same count, also when it writes to the storage
    that the first call has filled. *)
Theorem read_keeps_state b out num :
  let r := read b out num in
  r.1.1 = b /\
  (size r.1.1 = size b /\ empty r.1.1 = empty b /\ full r.1.1 = full b /\
   front r.1.1 = front b /\ back r.1.1 = back b /\
   (forall i, at_ r.1.1 i = at_ b i) /\ contents r.1.1 = contents b) /\
  read r.1.1 out num = r /\
  (wf b -> 0 <= num -> Z.min num (size b) <= Z.of_nat (length out) ->
   read r.1.1 r.1.2 num = r).
Proof.
  intros r. subst r. rewrite read_buffer.
  split; [done|]. split; [done|]. split; [done|].
  intros Hwf Hnum Hroom. pose proof (size_range b Hwf) as Hr.
  rewrite (read_spec b out num) by done. simpl.
  rewrite read_spec; [|done|done|].
  - do 2 f_equal. rewrite drop_app_length'; [done|].
    rewrite length_take, contents_length. lia.
  - rewrite length_app, length_take, length_drop, contents_length. lia.
Qed.

(** C8. On an empty buffer [front()], [back()] and [at(i)] are absent and
    the two pops change nothing; [at(i)] is absent from [size()] on and is
    the element at logical index [i] below it. *)
Theorem absent_results_and_empty_pops b :
  wf b ->
  (empty b = true ->
   front b = None /\ back b = None /\ (forall i, at_ b i = None) /\
   pop_front b = b /\ pop_back b = b) /\
  (forall i, size b <= i -> at_ b i = None) /\
  (forall i, 0 <= i < size b ->
     at_ b i = Some (index b i) /\ contents b !! Z.to_nat i = Some (index b i)).
Proof.
  intros Hwf. split; [|split].
  - intros Hemp. unfold front, back, at_, pop_front, pop_back.
    by rewrite Hemp.
  - intros i Hi. unfold at_.
    destruct (Z.ltb_spec i (size b)); [lia|]. by rewrite andb_false_r.
  - intros i Hi.
    assert (at_ b i = Some (index b i)) as Hat.
    { assert (empty b = false) as Hemp by (apply (empty_false_size b Hwf); lia).
      unfold at_, index. rewrite Hemp. simpl.
      destruct (Z.ltb_spec i (size b)); [done|lia]. }
    split; [done|]. rewrite <- at_contents by (done || lia). done.
Qed.
End Specification.

Section Scenarios.
Context `{SizeT}.

(** C3. [read(outbuf, num)] writes the first [min(num, size())] elements,
    front to back, at the start of the caller's storage, leaves the rest of
    the storage alone and returns that count; the elements come from at most
    two runs of the vector. For capacity 4, after [push_back] of 0, 1, 2, 3,
    one [pop_front] and [push_back(4)], [read(buf, 4)] gives [1, 2, 3, 4]. *)
Theorem read_copies_front_elements :
  (forall (T : Type) (HT : ValueInit T) (b : @CircularBuffer T) out num,
      wf b -> 0 <= num -> Z.min num (size b) <= Z.of_nat (length out) ->
      let k := Z.min num (size b) in
      let elms := Z.min (_cap b - _tail b) k in
      read b out num
      = (b, take (Z.to_nat k) (contents b) ++ drop (Z.to_nat k) out, k) /\
      take (Z.to_nat k) (contents b)
      = take (Z.to_nat elms) (drop (Z.to_nat (_tail b)) (_buf b))
          ++ take (Z.to_nat (k - elms)) (_buf b)) /\
  (forall (HZ : ValueInit Z) (b0 : @CircularBuffer Z) (out : list Z),
      make 4 = Some b0 -> (4 <= length out)%nat ->
      let b := push_back 4 (pop_front (push_back 3 (push_back 2
                 (push_back 1 (push_back 0 b0))))) in
      read b out 4 = (b, [1; 2; 3; 4] ++ drop 4 out, 4)).
Proof.
  split.
  - intros T HT b out num Hwf Hnum Hroom k elms.
    pose proof (size_range b Hwf). split.
    + by apply read_spec.
    + apply contents_two_runs; [done|lia].
  - intros HZ b0 out Hmk Hroom b.
    pose proof (represents_make _ _ Hmk) as R0.
    pose proof (represents_push_back 0 _ _ _ R0) as R1. simpl in R1.
    pose proof (represents_push_back 1 _ _ _ R1) as R2. simpl in R2.
    pose proof (represents_push_back 2 _ _ _ R2) as R3. simpl in R3.
    pose proof (represents_push_back 3 _ _ _ R3) as R4. simpl in R4.
    pose proof (represents_pop_front _ _ _ R4) as R5. simpl in R5.
    pose proof (represents_push_back 4 _ _ _ R5) as R6. simpl in R6.
    fold b in R6. pose proof (represents_size _ _ _ R6) as Hsz. simpl in Hsz.
    destruct R6 as (Hwf & _ & Hcont).
    rewrite read_spec by (done || lia). rewrite Hsz, Hcont. done.
Qed.

(** C9. Traversal from [begin()] to [end()] visits the [size()] elements
    front to back, [end()] standing [size()] positions after [begin()];
    traversal from [rbegin()] to [rend()] visits them back to front. A full
    buffer of capacity 4 that holds [9, 8, 7, 6] is traversed as 9, 8, 7, 6
    and in reverse as 6, 7, 8, 9. *)
Theorem iteration_order :
  (forall (T : Type) (HT : ValueInit T) (b : @CircularBuffer T)
          (this fuel : nat),
      wf b -> (Z.to_nat (size b) <= fuel)%nat ->
      _pos (end_ this b) = _pos (begin_ this b) + size b /\
      traverse fuel b (begin_ this b) (end_ this b) = Some (contents b) /\
      Z.of_nat (length (contents b)) = size b /\
      rtraverse fuel b (rbegin this b) (rend this b)
      = Some (reverse (contents b))) /\
  (forall (HZ : ValueInit Z) (b : @CircularBuffer Z) (this fuel : nat),
      represents b 4 [9; 8; 7; 6] -> (4 <= fuel)%nat ->
      full b = true /\
      traverse fuel b (begin_ this b) (end_ this b) = Some [9; 8; 7; 6] /\
      rtraverse fuel b (rbegin this b) (rend this b) = Some [6; 7; 8; 9]).
Proof.
  split.
  - intros T HT b this fuel Hwf Hfuel. pose proof (size_range b Hwf).
    split; [by apply end_pos|]. split; [by apply traverse_all|].
    split; [rewrite contents_length; lia|by apply rtraverse_all].
  - intros HZ b this fuel Hrep Hfuel.
    pose proof (represents_size _ _ _ Hrep) as Hsz. simpl in Hsz.
    rewrite (represents_full _ _ _ Hrep).
    destruct Hrep as (Hwf & _ & Hcont).
    rewrite traverse_all, rtraverse_all, Hcont by (done || lia). done.
Qed.

(** C1, amended. The scenario for capacity 4, as the unit test of the
    library runs it: [push_back(1)] gives [front() == back() == 1];
    [pop_front()] empties the buffer; [push_back(2)] gives
    [front() == back() == 2]; [pop_back()] empties the buffer again; then
    [push_front(3)], [push_back(4)], [push_back(5)], [push_front(6)] fill it
    with [6, 3, 4, 5]. Without the [pop_back()] the same four pushes leave
    the buffer full with [6, 3, 2, 4]: the last [push_front] evicts the 5. *)
Theorem scenario_capacity_4 (HZ : ValueInit Z) (b0 : @CircularBuffer Z) :
  make 4 = Some b0 ->
  let b1 := push_back 1 b0 in
  let b2 := pop_front b1 in
  let b3 := push_back 2 b2 in
  let b4 := pop_back b3 in
  let b8 := push_front 6 (push_back 5 (push_back 4 (push_front 3 b4))) in
  let b7 := push_front 6 (push_back 5 (push_back 4 (push_front 3 b3))) in
  (front b1 = Some 1 /\ back b1 = Some 1) /\
  empty b2 = true /\
  (front b3 = Some 2 /\ back b3 = Some 2) /\
  empty b4 = true /\
  (full b8 = true /\ contents b8 = [6; 3; 4; 5]) /\
  (full b7 = true /\ contents b7 = [6; 3; 2; 4]).
Proof.
  intros Hmk b1 b2 b3 b4 b8 b7.
  pose proof (represents_make _ _ Hmk) as R0.
  pose proof (represents_push_back 1 _ _ _ R0) as R1. simpl in R1. fold b1 in R1.
  pose proof (represents_pop_front _ _ _ R1) as R2. simpl in R2. fold b2 in R2.
  pose proof (represents_push_back 2 _ _ _ R2) as R3. simpl in R3. fold b3 in R3.
  pose proof (represents_pop_back _ _ _ R3) as R4. simpl in R4. fold b4 in R4.
  pose proof (represents_push_front 3 _ _ _ R4) as R5. simpl in R5.
  pose proof (represents_push_back 4 _ _ _ R5) as R6. simpl in R6.
  pose proof (represents_push_back 5 _ _ _ R6) as R7. simpl in R7.
  pose proof (represents_push_front 6 _ _ _ R7) as R8. simpl in R8. fold b8 in R8.
  pose proof (represents_push_front 3 _ _ _ R3) as S4. simpl in S4.
  pose proof (represents_push_back 4 _ _ _ S4) as S5. simpl in S5.
  pose proof (represents_push_back 5 _ _ _ S5) as S6. simpl in S6.
  pose proof (represents_push_front 6 _ _ _ S6) as S7. simpl in S7. fold b7 in S7.
  rewrite (represents_front _ _ _ R1), (represents_back _ _ _ R1).
  rewrite (represents_empty _ _ _ R2).
  rewrite (represents_front _ _ _ R3), (represents_back _ _ _ R3).
  rewrite (represents_empty _ _ _ R4).
  rewrite (represents_full _ _ _ R8), (represents_full _ _ _ S7).
  destruct R8 as (_ & _ & ->). destruct S7 as (_ & _ & ->). done.
Qed.
End Scenarios.

(** ** The properties at concrete buffers

    Each statement instantiates a theorem above on the 32-bit target and
    checks its hypotheses by computation. *)

Section Witnesses.
#[local] Existing Instance size_t_32.
#[local] Existing Instance int_init.

(** The sample buffers are the states that the operations produce. *)
Lemma sample_buffers :
  push_back 6 (push_back 7 (push_back 8 (push_back 9 fresh_4))) = full_4 /\
  push_back 4 (pop_front (push_back 3 (push_back 2 (push_back 1
    (push_back 0 fresh_4))))) = wrapped_4.
Proof. split; reflexivity. Qed.

(** The scenario of C1, as the claim words it, ends with other contents. *)
Lemma scenario_as_stated_fails :
  make 4 = Some fresh_4 /\
  contents (push_front 6 (push_back 5 (push_back 4 (push_front 3
    (push_back 2 (pop_front (push_back 1 fresh_4)))))))
  <> [6; 3; 4; 5].
Proof. split; [reflexivity|]. vm_compute. discriminate. Qed.

Lemma scenario_capacity_4_witness :
  make 4 = Some fresh_4 /\
  let b1 := push_back 1 fresh_4 in
  let b2 := pop_front b1 in
  let b3 := push_back 2 b2 in
  let b4 := pop_back b3 in
  let b8 := push_front 6 (push_back 5 (push_back 4 (push_front 3 b4))) in
  let b7 := push_front 6 (push_back 5 (push_back 4 (push_front 3 b3))) in
  (front b1 = Some 1 /\ back b1 = Some 1) /\
  empty b2 = true /\
  (front b3 = Some 2 /\ back b3 = Some 2) /\
  empty b4 = true /\
  (full b8 = true /\ contents b8 = [6; 3; 4; 5]) /\
  (full b7 = true /\ contents b7 = [6; 3; 2; 4]).
Proof.
  split; [reflexivity|].
  apply (scenario_capacity_4 int_init fresh_4). reflexivity.
Defined.

Lemma push_on_full_evicts_opposite_end_witness :
  wf full_4 /\ size full_4 = capacity full_4 /\
  ((exists x rest,
       contents full_4 = x :: rest /\ front full_4 = Some x /\
       contents (push_back 5 full_4) = rest ++ [5]) /\
   size (push_back 5 full_4) = capacity (push_back 5 full_4) /\
   (exists rest y,
       contents full_4 = rest ++ [y] /\ back full_4 = Some y /\
       contents (push_front 5 full_4) = 5 :: rest) /\
   size (push_front 5 full_4) = capacity (push_front 5 full_4)).
Proof.
  assert (wf full_4) as Hwf by (apply wfb_wf; vm_compute; reflexivity).
  assert (size full_4 = capacity full_4) as Hsz by reflexivity.
  split; [exact Hwf|]. split; [exact Hsz|].
  exact (push_on_full_evicts_opposite_end full_4 5 Hwf Hsz).
Defined.

Lemma read_copies_front_elements_witness :
  (wf wrapped_4 /\ 0 <= 4 /\
   Z.min 4 (size wrapped_4) <= Z.of_nat (length [0; 0; 0; 0]) /\
   read wrapped_4 [0; 0; 0; 0] 4 = (wrapped_4, [1; 2; 3; 4], 4)) /\
  (make 4 = Some fresh_4 /\ (4 <= length [0; 0; 0; 0])%nat /\
   read (push_back 4 (pop_front (push_back 3 (push_back 2 (push_back 1
           (push_back 0 fresh_4)))))) [0; 0; 0; 0] 4
   = (wrapped_4, [1; 2; 3; 4], 4)).
Proof.
  assert (wf wrapped_4) as Hwf by (apply wfb_wf; vm_compute; reflexivity).
  assert (0 <= 4) as Hnum by lia.
  assert (Z.min 4 (size wrapped_4) <= Z.of_nat (length [0; 0; 0; 0])) as Hroom
    by (vm_compute; discriminate).
  assert ((4 <= length [0; 0; 0; 0])%nat) as Hlen by (simpl; lia).
  split.
  - split; [exact Hwf|]. split; [exact Hnum|]. split; [exact Hroom|].
    exact (proj1 (proj1 read_copies_front_elements Z int_init wrapped_4
                    [0; 0; 0; 0] 4 Hwf Hnum Hroom)).
  - split; [reflexivity|]. split; [exact Hlen|].
    exact (proj2 read_copies_front_elements int_init fresh_4 [0; 0; 0; 0]
             eq_refl Hlen).
Defined.
Lemma range_truncation_witness :
  Z.of_nat (length [1; 2; 3; 4; 5; 6]) <= PTRDIFF_MAX /\
  (wf fresh_4 /\ capacity fresh_4 < Z.of_nat (length [1; 2; 3; 4; 5; 6]) /\
   contents (assign [1; 2; 3; 4; 5; 6] fresh_4) = [3; 4; 5; 6] /\
   size (assign [1; 2; 3; 4; 5; 6] fresh_4) = 4) /\
  (make_range 4 [1; 2; 3; 4; 5; 6] = Some (assign [1; 2; 3; 4; 5; 6] fresh_4) /\
   4 < Z.of_nat (length [1; 2; 3; 4; 5; 6]) /\
   contents (assign [1; 2; 3; 4; 5; 6] fresh_4) = [3; 4; 5; 6] /\
   capacity (assign [1; 2; 3; 4; 5; 6] fresh_4) = 4).
Proof.
  assert (Z.of_nat (length [1; 2; 3; 4; 5; 6]) <= PTRDIFF_MAX) as Hfit
    by (vm_compute; discriminate).
  assert (wf fresh_4) as Hwf by (apply wfb_wf; vm_compute; reflexivity).
  assert (capacity fresh_4 < Z.of_nat (length [1; 2; 3; 4; 5; 6])) as Hlong
    by reflexivity.
  assert (4 < Z.of_nat (length [1; 2; 3; 4; 5; 6])) as Hlong' by reflexivity.
  pose proof (range_truncation [1; 2; 3; 4; 5; 6] Hfit) as [Hassign Hmake].
  split; [exact Hfit|]. split.
  - split; [exact Hwf|]. split; [exact Hlong|].
    destruct (Hassign fresh_4 Hwf Hlong) as (Hc & _ & Hs & _).
    split; [exact Hc|exact Hs].
  - split; [reflexivity|]. split; [exact Hlong'|].
    destruct (Hmake 4 _ eq_refl Hlong') as (Hc & _ & _ & Hcap).
    split; [exact Hc|exact Hcap].
Defined.

Lemma reachable_size_laws_witness :
  reachable (push_back 1 fresh_4) /\
  (0 <= size (push_back 1 fresh_4) <= capacity (push_back 1 fresh_4) /\
   (empty (push_back 1 fresh_4) = true <-> size (push_back 1 fresh_4) = 0) /\
   (full (push_back 1 fresh_4) = true
    <-> size (push_back 1 fresh_4) = capacity (push_back 1 fresh_4))).
Proof.
  assert (reachable (push_back 1 fresh_4)) as Hreach.
  { apply reach_push_back. apply (reach_make 4). reflexivity. }
  split; [exact Hreach|].
  exact (reachable_size_laws (push_back 1 fresh_4) Hreach).
Defined.

Lemma range_round_trip_witness :
  make_range 4 [7; 8; 9] = Some (assign [7; 8; 9] fresh_4) /\
  Z.of_nat (length [7; 8; 9]) <= 4 /\
  (length [7; 8; 9] <= 3)%nat /\
  traverse 3 (assign [7; 8; 9] fresh_4)
    (begin_ 0 (assign [7; 8; 9] fresh_4)) (end_ 0 (assign [7; 8; 9] fresh_4))
  = Some [7; 8; 9].
Proof.
  assert (Z.of_nat (length [7; 8; 9]) <= 4) as Hshort by (simpl; lia).
  assert ((length [7; 8; 9] <= 3)%nat) as Hfuel by (simpl; lia).
  split; [reflexivity|]. split; [exact Hshort|]. split; [exact Hfuel|].
  exact (range_round_trip 4 [7; 8; 9] _ 0%nat 3%nat eq_refl Hshort Hfuel).
Defined.

Lemma read_keeps_state_witness :
  wf wrapped_4 /\ 0 <= 3 /\
  Z.min 3 (size wrapped_4) <= Z.of_nat (length [0; 0; 0; 0]) /\
  (read wrapped_4 [0; 0; 0; 0] 3).1.1 = wrapped_4 /\
  read (read wrapped_4 [0; 0; 0; 0] 3).1.1 (read wrapped_4 [0; 0; 0; 0] 3).1.2 3
  = read wrapped_4 [0; 0; 0; 0] 3.
Proof.
  assert (wf wrapped_4) as Hwf by (apply wfb_wf; vm_compute; reflexivity).
  assert (0 <= 3) as Hnum by lia.
  assert (Z.min 3 (size wrapped_4) <= Z.of_nat (length [0; 0; 0; 0])) as Hroom
    by (vm_compute; discriminate).
  destruct (read_keeps_state wrapped_4 [0; 0; 0; 0] 3) as (Hsame & _ & _ & Hagain).
  split; [exact Hwf|]. split; [exact Hnum|]. split; [exact Hroom|].
  split; [exact Hsame|exact (Hagain Hwf Hnum Hroom)].
Defined.

Lemma absent_results_and_empty_pops_witness :
  (wf fresh_4 /\ empty fresh_4 = true /\
   front fresh_4 = None /\ back fresh_4 = None /\ at_ fresh_4 0 = None /\
   pop_front fresh_4 = fresh_4 /\ pop_back fresh_4 = fresh_4) /\
  (wf wrapped_4 /\ size wrapped_4 <= 4 /\ at_ wrapped_4 4 = None /\
   0 <= 3 < size wrapped_4 /\ at_ wrapped_4 3 = Some 4).
Proof.
  assert (wf fresh_4) as Hwf0 by (apply wfb_wf; vm_compute; reflexivity).
  assert (wf wrapped_4) as Hwf by (apply wfb_wf; vm_compute; reflexivity).
  assert (empty fresh_4 = true) as Hemp by reflexivity.
  assert (size wrapped_4 <= 4) as Hpast by (vm_compute; discriminate).
  assert (0 <= 3 < size wrapped_4) as Hin by (vm_compute; split; [discriminate|reflexivity]).
  destruct (absent_results_and_empty_pops fresh_4 Hwf0) as (Hempty & _ & _).
  destruct (Hempty Hemp) as (Hf & Hb & Hat & Hpf & Hpb).
  destruct (absent_results_and_empty_pops wrapped_4 Hwf) as (_ & Hge & Hlt).
  split.
  - split; [exact Hwf0|]. split; [exact Hemp|]. split; [exact Hf|].
    split; [exact Hb|]. split; [exact (Hat 0)|]. split; [exact Hpf|exact Hpb].
  - split; [exact Hwf|]. split; [exact Hpast|]. split; [exact (Hge 4 Hpast)|].
    split; [exact Hin|exact (proj1 (Hlt 3 Hin))].
Defined.

Lemma iteration_order_witness :
  (wf wrapped_4 /\ (Z.to_nat (size wrapped_4) <= 4)%nat /\
   _pos (end_ 0 wrapped_4) = 5 /\
   traverse 4 wrapped_4 (begin_ 0 wrapped_4) (end_ 0 wrapped_4)
   = Some [1; 2; 3; 4] /\
   rtraverse 4 wrapped_4 (rbegin 0 wrapped_4) (rend 0 wrapped_4)
   = Some [4; 3; 2; 1]) /\
  (represents full_4 4 [9; 8; 7; 6] /\ (4 <= 4)%nat /\
   full full_4 = true /\
   traverse 4 full_4 (begin_ 0 full_4) (end_ 0 full_4) = Some [9; 8; 7; 6] /\
   rtraverse 4 full_4 (rbegin 0 full_4) (rend 0 full_4) = Some [6; 7; 8; 9]).
Proof.
  assert (wf wrapped_4) as Hwf by (apply wfb_wf; vm_compute; reflexivity).
  assert ((Z.to_nat (size wrapped_4) <= 4)%nat) as Hfuel by (vm_compute; lia).
  assert (represents full_4 4 [9; 8; 7; 6]) as Hrep.
  { split; [apply wfb_wf; vm_compute; reflexivity|]. split; reflexivity. }
  assert ((4 <= 4)%nat) as Hfuel' by lia.
  destruct iteration_order as [Hgen Hscen].
  destruct (Hgen Z int_init wrapped_4 0%nat 4%nat Hwf Hfuel) as (He & Ht & _ & Hr).
  destruct (Hscen int_init full_4 0%nat 4%nat Hrep Hfuel') as (Hfull & Ht' & Hr').
  split.
  - split; [exact Hwf|]. split; [exact Hfuel|]. split; [exact He|].
    split; [exact Ht|exact Hr].
  - split; [exact Hrep|]. split; [exact Hfuel'|]. split; [exact Hfull|].
    split; [exact Ht'|exact Hr'].
Defined.

Lemma push_then_peek_witness :
  wf wrapped_4 /\
  back (push_back 5 wrapped_4) = Some 5 /\
  front (push_front 5 wrapped_4) = Some 5 /\
  empty (push_back 5 wrapped_4) = false /\
  empty (push_front 5 wrapped_4) = false.
Proof.
  assert (wf wrapped_4) as Hwf by (apply wfb_wf; vm_compute; reflexivity).
  split; [exact Hwf|]. exact (push_then_peek wrapped_4 5 Hwf).
Defined.
End Witnesses.

(** ** Further properties of the container *)

Section MoreFacts.
Context `{SizeT} {T : Type} `{ValueInit T}.
Implicit Types (b : @CircularBuffer T) (v x : T) (l out range : list T).
Implicit Types (i n num : Z) (this fuel : nat).

Lemma contents_fill v b :
  wf b -> contents (fill v b) = replicate (Z.to_nat (_cap b)) v.
Proof.
  intros Hwf. pose proof (fill_wf v b Hwf) as Hwf'.
  destruct (Hwf) as [Hc Hl Hh Ht Hf].
  assert (size (fill v b) = _cap b) as Hsz by done.
  apply contents_intro.
  - rewrite length_replicate. by rewrite Hsz.
  - intros k Hk. rewrite length_replicate in Hk.
    rewrite lookup_replicate_2 by done. f_equal.
    rewrite (index_phys _ _ Hwf') by (simpl; lia). simpl.
    unfold vec_get. rewrite lookup_replicate_2; [done|split_tests; lia].
Qed.

(** X1. [fill(v)] on any buffer leaves it full with every element [v]:
    [size() == capacity()], the capacity is unchanged, and [front()],
    [back()] and [at(i)] for every [i] below the capacity are [v]. *)
Theorem fill_overwrites_everything v b :
  wf b ->
  wf (fill v b) /\
  full (fill v b) = true /\
  size (fill v b) = capacity b /\
  capacity (fill v b) = capacity b /\
  contents (fill v b) = replicate (Z.to_nat (capacity b)) v /\
  front (fill v b) = Some v /\
  back (fill v b) = Some v /\
  (forall i, 0 <= i < capacity b -> at_ (fill v b) i = Some v).
Proof.
  intros Hwf. pose proof (fill_wf v b Hwf) as Hwf'.
  pose proof (contents_fill v b Hwf) as Hcont. unfold capacity.
  destruct (Hwf) as [Hc _ _ _ _].
  assert (exists k : nat, Z.to_nat (_cap b) = S k) as [k Hk]
    by (exists (Z.to_nat (_cap b) - 1)%nat; lia).
  split; [done|]. split; [done|]. split; [done|]. split; [done|].
  split; [done|]. split; [|split].
  - rewrite front_contents, Hcont, Hk by done. done.
  - rewrite back_contents, Hcont, last_lookup, length_replicate by done.
    rewrite lookup_replicate_2; [done|lia].
  - intros i Hi. rewrite at_contents, Hcont by (done || lia).
    rewrite lookup_replicate_2; [done|lia].
Qed.
Lemma assign_fill_loop_contents (k : nat) v b :
  wf b -> size b + Z.of_nat k <= _cap b ->
  contents (assign_fill_loop k v b) = contents b ++ replicate k v.
Proof.
  revert b. induction k as [|k IH]; intros b Hwf Hroom; simpl.
  { by rewrite app_nil_r. }
  assert (full b = false) as Hnf.
  { pose proof (full_iff_size b Hwf) as Hf. unfold capacity in Hf.
    destruct (full b); [|done]. assert (size b = _cap b) by tauto. lia. }
  rewrite IH.
  - rewrite contents_push_back, Hnf by done. by rewrite <- app_assoc.
  - by apply push_back_wf.
  - rewrite size_push_back, Hnf by done. simpl. lia.
Qed.

Lemma assign_fill_contents n v b :
  wf b ->
  contents (assign_fill n v b) = replicate (Z.to_nat (Z.min n (_cap b))) v.
Proof.
  intros Hwf. pose proof (clear_wf b Hwf) as Hwf0.
  pose proof (size_clear b Hwf) as Hsz0. unfold assign_fill.
  destruct (Hwf) as [Hc _ _ _ _].
  rewrite assign_fill_loop_contents by (done || rewrite Hsz0; simpl; lia).
  rewrite contents_clear by done. simpl. f_equal. lia.
Qed.

(** X2. [assign(n, v)] replaces the contents by [min(n, capacity())]
    copies of [v]. [CircularBuffer(n, v)] therefore constructs a full buffer
    of [n] copies, and [FixedCircularBuffer<T, N>(n, v)] a buffer of
    capacity [N] with [min(n, N)] copies, full exactly when [N <= n]. *)
Theorem assign_fill_copies n v :
  0 <= n ->
  (forall b,
      wf b ->
      contents (assign_fill n v b)
      = replicate (Z.to_nat (Z.min n (capacity b))) v /\
      size (assign_fill n v b) = Z.min n (capacity b) /\
      capacity (assign_fill n v b) = capacity b) /\
  (forall b,
      make_fill n v = Some b ->
      capacity b = n /\ full b = true /\
      contents b = replicate (Z.to_nat n) v) /\
  (forall N b,
      fixed_make_fill N n v = Some b ->
      capacity b = N /\
      contents b = replicate (Z.to_nat (Z.min n N)) v /\
      (full b = true <-> N <= n)).
Proof.
  intros Hn.
  assert (forall b, wf b ->
    contents (assign_fill n v b) = replicate (Z.to_nat (Z.min n (capacity b))) v /\
    size (assign_fill n v b) = Z.min n (capacity b) /\
    capacity (assign_fill n v b) = capacity b) as Hassign.
  { intros b Hwf. pose proof (assign_fill_wf n v b Hwf) as Hwf'.
    pose proof (assign_fill_contents n v b Hwf) as Hcont.
    pose proof (size_range _ Hwf') as Hr. destruct (Hwf) as [Hc _ _ _ _].
    split; [done|]. split; [|by apply assign_fill_cap].
    assert (length (contents (assign_fill n v b))
            = Z.to_nat (Z.min n (_cap b))) as Hlen
      by (by rewrite Hcont, length_replicate).
    rewrite contents_length in Hlen. unfold capacity. lia. }
  split; [done|]. split.
  - intros b Hmk. unfold make_fill in Hmk.
    destruct (make n) as [b0|] eqn:Hb0; [|done]. injection Hmk as <-.
    pose proof (make_wf n b0 Hb0) as Hwf. pose proof (make_cap n b0 Hb0) as Hcap.
    destruct (Hassign b0 Hwf) as (Hcont & Hsz & Hcap').
    rewrite Hcap in *. rewrite Z.min_id in *.
    split; [done|]. split; [|done].
    apply (full_iff_size _ (assign_fill_wf n v b0 Hwf)). lia.
  - intros N b Hmk. unfold fixed_make_fill in Hmk.
    destruct (make N) as [b0|] eqn:Hb0; [|done]. injection Hmk as <-.
    pose proof (make_wf N b0 Hb0) as Hwf. pose proof (make_cap N b0 Hb0) as Hcap.
    destruct (Hassign b0 Hwf) as (Hcont & Hsz & Hcap').
    rewrite Hcap in *. split; [done|]. split; [done|].
    rewrite (full_iff_size _ (assign_fill_wf n v b0 Hwf)). lia.
Qed.

(** X3. Pushing the elements of [l] one after the other at the back keeps
    the most recent [capacity()] elements: the contents are the last
    [capacity()] elements of the old contents followed by [l]. *)
Theorem push_back_all_keeps_most_recent l b :
  wf b ->
  wf (push_back_all l b) /\
  capacity (push_back_all l b) = capacity b /\
  contents (push_back_all l b)
  = drop (length (contents b ++ l) - Z.to_nat (capacity b)) (contents b ++ l).
Proof.
  unfold capacity. revert b. induction l as [|x l IH]; intros b Hwf; simpl.
  - split; [done|]. split; [done|]. pose proof (size_range b Hwf).
    rewrite app_nil_r, contents_length.
    replace (Z.to_nat (size b) - Z.to_nat (_cap b))%nat with 0%nat by lia. done.
  - destruct (IH (push_back x b) (push_back_wf x b Hwf)) as (Hwf' & Hcap & Hcont).
    split; [done|]. split; [done|]. rewrite Hcont. simpl.
    rewrite contents_push_back by done.
    pose proof (full_contents b Hwf) as Hfull. unfold capacity in Hfull.
    pose proof (size_range b Hwf) as Hr. pose proof (contents_length b) as Hlen.
    destruct (Hwf) as [Hc _ _ _ _].
    destruct (full b).
    + symmetry in Hfull. apply Z.eqb_eq in Hfull.
      destruct (contents b) as [|y c] eqn:Hcb; [simpl in *; lia|]. simpl.
      rewrite drop_0, <- app_assoc. simpl in *.
      rewrite !length_app. simpl.
      replace (S (length c + S (length l)) - Z.to_nat (_cap b))%nat
        with (S (length c + S (length l) - Z.to_nat (_cap b)))%nat by lia.
      done.
    + rewrite <- app_assoc. simpl. by rewrite !length_app.
Qed.
(** X4. On a buffer that is not empty, [pop_front()] removes exactly the
    element that [front()] returns and [pop_back()] exactly the element
    that [back()] returns; the other elements keep their order, the size
    drops by one and the buffer is no longer full. *)
Theorem pop_removes_one_end b :
  wf b -> 0 < size b ->
  (exists x rest,
      contents b = x :: rest /\ front b = Some x /\
      contents (pop_front b) = rest) /\
  (exists rest y,
      contents b = rest ++ [y] /\ back b = Some y /\
      contents (pop_back b) = rest) /\
  size (pop_front b) = size b - 1 /\
  size (pop_back b) = size b - 1 /\
  full (pop_front b) = false /\
  full (pop_back b) = false.
Proof.
  intros Hwf Hpos. pose proof (contents_length b) as Hlen.
  assert (empty b = false) as Hemp by (by apply empty_false_size).
  split; [|split; [|split; [|split; [|split]]]].
  - destruct (contents b) as [|x rest] eqn:Hcont; [simpl in Hlen; lia|].
    exists x, rest. split; [done|]. split.
    + by rewrite front_contents, Hcont.
    + by rewrite contents_pop_front, Hcont.
  - destruct (last (contents b)) as [y|] eqn:Hlast.
    + apply last_Some in Hlast as [rest Hrest]. exists rest, y.
      split; [done|]. split.
      * by rewrite back_contents, Hrest, last_snoc.
      * rewrite contents_pop_back, Hrest by done.
        rewrite Hrest, length_app in Hlen. simpl in Hlen.
        rewrite take_app_length'; [done|lia].
    + apply last_None in Hlast. rewrite Hlast in Hlen. simpl in Hlen. lia.
  - by rewrite size_pop_front, Hemp.
  - by rewrite size_pop_back, Hemp.
  - unfold pop_front. by rewrite Hemp.
  - unfold pop_back. by rewrite Hemp.
Qed.

(** X5. A push followed by the pop at the same end gives back the old
    contents when the buffer was not full. When it was full, the element
    that the push has evicted at the other end stays lost. *)
Theorem push_then_pop_same_end v b :
  wf b ->
  contents (pop_back (push_back v b))
  = (if full b then drop 1 (contents b) else contents b) /\
  contents (pop_front (push_front v b))
  = (if full b then take (Z.to_nat (size b - 1)) (contents b) else contents b).
Proof.
  intros Hwf. pose proof (push_back_wf v b Hwf) as Hwb.
  pose proof (push_front_wf v b Hwf) as Hwf'.
  pose proof (size_range b Hwf) as Hr. destruct (Hwf) as [Hc _ _ _ _].
  split.
  - rewrite contents_pop_back, contents_push_back by done.
    rewrite take_app_length'; [done|].
    pose proof (contents_length (push_back v b)) as Hlen.
    rewrite contents_push_back, length_app in Hlen by done. simpl in Hlen. lia.
  - rewrite contents_pop_front, contents_push_front by done. done.
Qed.


Lemma assign_loop_buf_length (k : nat) first b :
  length (_buf (assign_loop k first b)) = length (_buf b).
Proof.
  revert first b. induction k as [|k IH]; intros [|x first] b; simpl; try done.
  rewrite IH. apply vec_set_length.
Qed.

Lemma assign_fill_loop_buf_length (k : nat) v b :
  length (_buf (assign_fill_loop k v b)) = length (_buf b).
Proof.
  revert b. induction k as [|k IH]; intros b; simpl; [done|].
  rewrite IH. apply vec_set_length.
Qed.

Lemma mutates_keeps_storage b b' :
  mutates b b' ->
  capacity b' = capacity b /\ length (_buf b') = length (_buf b) /\
  (wf b -> wf b').
Proof.
  intros [v b0|v b0|b0|b0|b0|v b0|range b0|n v b0|b0 out num].
  - split; [done|]. split; [apply vec_set_length|apply push_back_wf].
  - split; [done|]. split; [apply vec_set_length|apply push_front_wf].
  - split; [apply pop_front_cap|]. split; [|apply pop_front_wf].
    unfold pop_front. by destruct (empty b0).
  - split; [apply pop_back_cap|]. split; [|apply pop_back_wf].
    unfold pop_back. by destruct (empty b0).
  - split; [done|]. split; [done|apply clear_wf].
  - split; [done|]. split; [apply length_replicate|apply fill_wf].
  - split; [apply assign_cap|]. split; [|apply assign_wf].
    unfold assign. by rewrite assign_loop_buf_length.
  - split; [apply assign_fill_cap|]. split; [|apply assign_fill_wf].
    unfold assign_fill. by rewrite assign_fill_loop_buf_length.
  - by rewrite read_buffer.
Qed.

(** X7. No member function resizes the storage: after any number of calls
    of [push_front], [push_back], [pop_front], [pop_back], [clear], [fill],
    [assign] and [read], the capacity and the length of the vector are those
    of the buffer the calls started from, and a well-formed buffer stays
    well-formed. *)
Theorem capacity_never_changes b b' :
  rtc mutates b b' ->
  capacity b' = capacity b /\ length (_buf b') = length (_buf b) /\
  (wf b -> wf b').
Proof.
  induction 1 as [b|b b1 b' Hstep _ (IHc & IHl & IHw)]; [done|].
  destruct (mutates_keeps_storage _ _ Hstep) as (Hc & Hl & Hw).
  split; [congruence|]. split; [congruence|]. auto.
Qed.


(** X9. The sizes after the modifiers: a push adds one element up to the
    capacity, a pop removes one down to zero, [clear()] leaves none. *)
Theorem size_after_modifiers v b :
  wf b ->
  size (push_back v b) = Z.min (size b + 1) (capacity b) /\
  size (push_front v b) = Z.min (size b + 1) (capacity b) /\
  size (pop_front b) = Z.max (size b - 1) 0 /\
  size (pop_back b) = Z.max (size b - 1) 0 /\
  size (clear b) = 0.
Proof.
  intros Hwf. pose proof (size_range b Hwf) as Hr.
  pose proof (full_iff_size b Hwf) as Hfull.
  pose proof (empty_iff_size b Hwf) as Hemp. unfold capacity in *.
  rewrite size_push_back, size_push_front, size_pop_front, size_pop_back,
    size_clear by done.
  assert (full b = true -> size b = _cap b) as Hf1 by tauto.
  assert (full b = false -> size b <> _cap b) as Hf2
    by (intros Hnf Heq; apply Hfull in Heq; congruence).
  assert (empty b = true -> size b = 0) as He1 by tauto.
  assert (empty b = false -> size b <> 0) as He2
    by (intros Hne Heq; apply Hemp in Heq; congruence).
  destruct (full b), (empty b);
    repeat match goal with
      | Hx : ?c -> _ |- _ => first [specialize (Hx eq_refl) | clear Hx]
      end; lia.
Qed.

(** X10. [begin() == end()] holds exactly when the buffer is empty, and so
    does [rbegin() == rend()]: on a full buffer [_head] and [_tail]
    coincide, but [end()] stands [capacity()] positions after [begin()]. *)
Theorem begin_is_end_iff_empty this b :
  wf b ->
  iter_eqb (begin_ this b) (end_ this b) = empty b /\
  rev_eqb (rbegin this b) (rend this b) = empty b.
Proof.
  intros Hwf. pose proof (size_range b Hwf) as Hr.
  pose proof (empty_iff_size b Hwf) as Hemp.
  destruct (Hwf) as [Hc Hl Hh Ht Hf].
  unfold rev_eqb, rbegin, rend, begin_, end_. simpl.
  rewrite !iter_eqb_pos. rewrite (size_add_small (_cap b)) by lia.
  destruct (empty b).
  - assert (size b = 0) as -> by tauto. rewrite Z.add_0_r, Z.eqb_refl. done.
  - assert (size b <> 0) by (intros Hz; apply Hemp in Hz; done).
    split; apply Z.eqb_neq; lia.
Qed.

(** X11. [--] undoes [++] and [++] undoes [--] on every iterator, also
    where the position counter wraps around. *)
Theorem iterator_steps_invert (it : iterator) :
  0 <= _pos it < 2 ^ size_bits ->
  iter_decr (iter_incr it) = it /\ iter_incr (iter_decr it) = it.
Proof.
  destruct it as [buffer p]. unfold iter_decr, iter_incr. simpl. intros Hp.
  unfold size_add, size_sub.
  split; f_equal.
  - destruct (decide (p + 1 = 2 ^ size_bits)) as [Hwrap|Hno].
    + rewrite (to_size_t_over (p + 1)) by lia.
      rewrite to_size_t_neg by lia. lia.
    + rewrite (to_size_t_small (p + 1)) by lia.
      rewrite to_size_t_small by lia. lia.
  - destruct (decide (p = 0)) as [->|Hno].
    + rewrite (to_size_t_neg (0 - 1)) by lia.
      rewrite to_size_t_over by lia. lia.
    + rewrite (to_size_t_small (p - 1)) by lia.
      rewrite to_size_t_small by lia. lia.
Qed.

Lemma traverse_back_from this b (k : nat) :
  wf b ->
  forall fuel : nat,
    Z.of_nat k <= size b -> (k <= fuel)%nat ->
    traverse_back fuel b
      {| _buffer := this; _pos := _tail b + Z.of_nat k |} (begin_ this b)
    = Some (reverse (take k (contents b))).
Proof.
  intros Hwf. pose proof (size_range b Hwf) as Hr.
  destruct (Hwf) as [Hc Hl Hh Ht Hf]. pose proof (cap_modulus _ Hc) as Hm.
  induction k as [|k IH]; intros fuel Hk Hfuel.
  - rewrite Z.add_0_r.
    destruct fuel; simpl; unfold begin_; by rewrite iter_eqb_pos, Z.eqb_refl.
  - destruct fuel as [|fuel]; [lia|]. simpl.
    unfold begin_ at 1. rewrite iter_eqb_pos.
    destruct (Z.eqb_spec (_tail b + Z.of_nat (S k)) (_tail b)); [lia|].
    unfold iter_decr. simpl.
    rewrite (size_sub_small (_cap b)) by lia.
    replace (_tail b + Z.of_nat (S k) - 1) with (_tail b + Z.of_nat k) by lia.
    rewrite IH by lia. simpl. f_equal.
    assert (contents b !! k = Some (index b (Z.of_nat k))) as Hlk
      by (apply contents_lookup; lia).
    rewrite (take_S_r _ _ _ Hlk), reverse_snoc. f_equal.
    rewrite index_phys by (done || lia).
    unfold iter_deref, capacity. simpl.
    rewrite (plain_mod (_cap b)) by lia. slots.
Qed.

(** X12. The backward loop from [end()] down to [begin()], which steps the
    iterator back before it dereferences it, visits the elements back to
    front. *)
Theorem backward_loop_reverses this b fuel :
  wf b -> (Z.to_nat (size b) <= fuel)%nat ->
  traverse_back fuel b (end_ this b) (begin_ this b)
  = Some (reverse (contents b)).
Proof.
  intros Hwf Hfuel. pose proof (size_range b Hwf) as Hr.
  pose proof (traverse_back_from this b (Z.to_nat (size b)) Hwf fuel) as Hgo.
  rewrite take_ge in Hgo by (rewrite contents_length; lia).
  rewrite <- Hgo by lia. unfold end_.
  destruct (Hwf) as [Hc Hl Hh Ht Hf].
  rewrite (size_add_small (_cap b)) by lia. do 2 f_equal. lia.
Qed.
End MoreFacts.

(** ** Properties of the file names for the log *)

Section LogFacts.
Implicit Types (s dir file rest bf af : list ascii) (p r : Log.cptr).

Lemma terminated_inv rest :
  Log.terminated rest -> rest = [] \/ exists rest', rest = Log.NUL :: rest'.
Proof.
  destruct rest as [|y rest]; [by left|]. unfold Log.terminated. simpl.
  intros ->%bool_decide_eq_true. right. by exists rest.
Qed.

Lemma c_str_of_app s rest :
  Log.NUL ∉ s -> Log.terminated rest -> Log.c_str_of (s ++ rest) = s.
Proof.
  intros Hs Hrest. induction s as [|x s IH]; cbn [Log.c_str_of app].
  - by destruct (terminated_inv rest Hrest) as [->|[rest' ->]].
  - apply not_elem_of_cons in Hs as [Hx Hs].
    rewrite bool_decide_eq_false_2 by done. by rewrite IH.
Qed.

Lemma c_str_of_split af :
  exists rest,
    af = Log.c_str_of af ++ rest /\ Log.terminated rest /\
    Log.NUL ∉ Log.c_str_of af.
Proof.
  induction af as [|x af (rest & Heq & Hterm & Hnul)]; simpl.
  - exists []. split; [done|]. split; [done|]. apply not_elem_of_nil.
  - destruct (decide (x = Log.NUL)) as [->|Hx].
    + rewrite bool_decide_eq_true_2 by done. exists (Log.NUL :: af).
      split; [done|]. split; [done|]. apply not_elem_of_nil.
    + rewrite bool_decide_eq_false_2 by done. exists rest.
      split; [simpl; congruence|]. split; [done|].
      apply not_elem_of_cons. split; [congruence|done].
Qed.

Lemma containss_slash_at_app s rest :
  Log.NUL ∉ s -> Log.terminated rest ->
  Log.containss_slash_at (s ++ rest) = bool_decide (Log.slash ∈ s).
Proof.
  intros Hs Hrest. induction s as [|x s IH]; cbn [Log.containss_slash_at app].
  - rewrite bool_decide_eq_false_2 by apply not_elem_of_nil.
    by destruct (terminated_inv rest Hrest) as [->|[rest' ->]].
  - apply not_elem_of_cons in Hs as [Hx Hs].
    rewrite bool_decide_eq_false_2 by done.
    destruct (decide (x = Log.slash)) as [->|Hne].
    + rewrite !bool_decide_eq_true_2; [done|apply list_elem_of_here|done].
    + rewrite bool_decide_eq_false_2 by done. rewrite IH by done.
      apply bool_decide_ext. rewrite elem_of_cons. split; [by right|].
      by intros [?|?].
Qed.

Lemma tail_at_app bf s rest :
  Log.NUL ∉ s -> Log.terminated rest ->
  Log.tail_at bf (s ++ rest)
  = {| Log.before := reverse s ++ bf; Log.after := rest |}.
Proof.
  intros Hs Hrest. revert bf.
  induction s as [|x s IH]; intros bf; cbn [Log.tail_at app].
  - by destruct (terminated_inv rest Hrest) as [->|[rest' ->]].
  - apply not_elem_of_cons in Hs as [Hx Hs].
    rewrite bool_decide_eq_false_2 by done. rewrite IH by done.
    by rewrite reverse_cons, <- app_assoc.
Qed.

Lemma after_right_slash_at_step bf af :
  Log.after_right_slash_at bf af
  = if Log.points_at Log.slash af
    then Some {| Log.before := Log.slash :: bf; Log.after := drop 1 af |}
    else match bf with
         | [] => None
         | x :: bf' => Log.after_right_slash_at bf' (x :: af)
         end.
Proof. by destruct bf. Qed.

Lemma points_at_cons c x af :
  Log.points_at c (x :: af) = bool_decide (x = c).
Proof. done. Qed.

Lemma after_right_slash_at_app dir file bf af :
  Log.slash ∉ file -> Log.points_at Log.slash af = false ->
  Log.after_right_slash_at (reverse (dir ++ Log.slash :: file) ++ bf) af
  = Some {| Log.before := reverse (dir ++ [Log.slash]) ++ bf;
            Log.after := file ++ af |}.
Proof.
  revert af. induction file as [|c file IH] using rev_ind; intros af Hfile Haf.
  - rewrite reverse_snoc. cbn [app].
    rewrite after_right_slash_at_step, Haf.
    rewrite after_right_slash_at_step, points_at_cons.
    by rewrite bool_decide_eq_true_2.
  - apply not_elem_of_app in Hfile as [Hfile Hc].
    apply not_elem_of_cons in Hc as [Hc _].
    replace (dir ++ Log.slash :: file ++ [c])
      with ((dir ++ Log.slash :: file) ++ [c]) by (by rewrite <- app_assoc).
    rewrite reverse_snoc. cbn [app].
    rewrite after_right_slash_at_step, Haf.
    rewrite IH; [by rewrite <- app_assoc|done|].
    rewrite points_at_cons. apply bool_decide_eq_false_2. congruence.
Qed.
Lemma slash_not_terminator rest :
  Log.terminated rest -> Log.points_at Log.slash rest = false.
Proof. by intros [->|[rest' ->]]%terminated_inv. Qed.

Lemma points_at_NUL_app s rest :
  Log.NUL ∉ s -> s <> [] -> Log.points_at Log.NUL (s ++ rest) = false.
Proof.
  destruct s as [|x s]; [done|]. intros [Hx _]%not_elem_of_cons _.
  cbn [app]. rewrite points_at_cons. by apply bool_decide_eq_false_2.
Qed.

Lemma path_with_slash p dir file rest :
  Log.after p = dir ++ Log.slash :: file ++ rest ->
  Log.NUL ∉ dir -> Log.NUL ∉ file -> Log.slash ∉ file -> Log.terminated rest ->
  Log.pathToFilename (Some p)
  = Some {| Log.before := reverse (dir ++ [Log.slash]) ++ Log.before p;
            Log.after := file ++ rest |} /\
  Log.c_str {| Log.before := reverse (dir ++ [Log.slash]) ++ Log.before p;
               Log.after := file ++ rest |} = file.
Proof.
  intros Hafter Hdir Hfile Hslash Hrest.
  assert (Log.NUL ∉ dir ++ Log.slash :: file) as Hnul.
  { apply not_elem_of_app. split; [done|].
    apply not_elem_of_cons. split; [done|done]. }
  assert (Log.after p = (dir ++ Log.slash :: file) ++ rest) as Hafter'
    by (by rewrite Hafter, <- app_assoc).
  split; [|by apply c_str_of_app].
  unfold Log.pathToFilename, Log.containss_slash, Log.after_right_slash, Log.tail.
  rewrite Hafter'.
  rewrite points_at_NUL_app by (done || by destruct dir).
  rewrite containss_slash_at_app by done.
  rewrite bool_decide_eq_true_2
    by (apply elem_of_app; right; apply list_elem_of_here).
  cbn [negb]. rewrite tail_at_app by done. cbn [Log.before Log.after].
  rewrite after_right_slash_at_app by (done || by apply slash_not_terminator).
  done.
Qed.

Lemma path_without_slash p s rest :
  Log.after p = s ++ rest ->
  Log.NUL ∉ s -> Log.slash ∉ s -> Log.terminated rest ->
  exists r,
    Log.pathToFilename (Some p) = Some r /\ Log.c_str r = s /\
    (s <> [] -> r = p).
Proof.
  intros Hafter Hnul Hslash Hrest.
  unfold Log.pathToFilename, Log.containss_slash. rewrite Hafter.
  destruct (decide (s = [])) as [->|Hne].
  - cbn [app]. rewrite Hrest. cbn [negb]. by exists Log.empty_literal.
  - rewrite points_at_NUL_app by done.
    rewrite containss_slash_at_app by done.
    rewrite bool_decide_eq_false_2 by done. cbn [negb].
    exists p. split; [done|]. split; [|done].
    unfold Log.c_str. rewrite Hafter. by apply c_str_of_app.
Qed.

(** X13. For a path that contains a slash, [pathToFilename] returns the
    pointer behind the last slash of the same array: the string there is
    the file name, the part of the path after its last slash (empty when
    the path ends with a slash). *)
Theorem path_to_filename_after_last_slash p dir file rest :
  Log.after p = dir ++ Log.slash :: file ++ rest ->
  Log.NUL ∉ dir -> Log.NUL ∉ file -> Log.slash ∉ file -> Log.terminated rest ->
  Log.pathToFilename (Some p)
  = Some {| Log.before := reverse (dir ++ [Log.slash]) ++ Log.before p;
            Log.after := file ++ rest |} /\
  Log.c_str {| Log.before := reverse (dir ++ [Log.slash]) ++ Log.before p;
               Log.after := file ++ rest |} = file.
Proof. apply path_with_slash. Qed.

(** X14. For a path without a slash, [pathToFilename] returns the path
    itself; for the empty string and for the null pointer it returns the
    empty string. *)
Theorem path_to_filename_without_slash :
  (forall p s rest,
      Log.after p = s ++ rest ->
      Log.NUL ∉ s -> Log.slash ∉ s -> Log.terminated rest ->
      exists r,
        Log.pathToFilename (Some p) = Some r /\ Log.c_str r = s /\
        (s <> [] -> r = p)) /\
  Log.pathToFilename None = Some Log.empty_literal /\
  Log.c_str Log.empty_literal = [].
Proof. split; [apply path_without_slash|done]. Qed.

(** X15. [pathToFilename] never steps in front of the array, whatever the
    argument: it always returns a pointer, the string there contains no
    slash and is the end of the string it was given. *)
Theorem path_to_filename_is_safe (path : option Log.cptr) :
  exists r,
    Log.pathToFilename path = Some r /\
    (Log.slash ∉ Log.c_str r) /\
    (Log.c_str r `suffix_of` from_option Log.c_str [] path).
Proof.
  destruct path as [p|]; simpl.
  2:{ exists Log.empty_literal. split; [done|].
      split; [apply not_elem_of_nil|done]. }
  destruct (c_str_of_split (Log.after p)) as (rest & Hafter & Hrest & Hnul).
  fold (Log.c_str p) in Hafter, Hnul.
  destruct (decide (Log.slash ∈ Log.c_str p)) as [Hin|Hout].
  - apply list_elem_of_split_r in Hin as (dir & file & Hsplit & Hfile).
    rewrite Hsplit in Hnul.
    apply not_elem_of_app in Hnul as [Hdir Hnul'].
    apply not_elem_of_cons in Hnul' as [_ Hfile'].
    assert (Log.after p = dir ++ Log.slash :: file ++ rest) as Hafter'.
    { rewrite Hafter, Hsplit, <- app_assoc. done. }
    destruct (path_with_slash p dir file rest
                Hafter' Hdir Hfile' Hfile Hrest) as [Hres Hstr].
    eexists. split; [exact Hres|]. rewrite Hstr. split; [done|].
    rewrite Hsplit. exists (dir ++ [Log.slash]). by rewrite <- app_assoc.
  - destruct (path_without_slash p (Log.c_str p) rest
                Hafter Hnul Hout Hrest) as (r & Hres & Hstr & _).
    exists r. split; [done|]. rewrite Hstr. split; [done|]. by exists [].
Qed.
End LogFacts.

(** ** Properties of the board support *)

(** Evaluates the conversions to [uint_fast8_t] of a goal, innermost
    first, once their arguments are numbers below 8. *)
Ltac eval_fast8 Hsmall :=
  repeat match goal with
    | |- context [Unified.to_fast8 ?z] =>
        lazymatch z with
        | context [Unified.to_fast8 _] => fail
        | _ => let v := eval vm_compute in z in
               change z with v; rewrite (Hsmall v) by lia
        end
    end.

Section UnifiedFacts.
Context `{Unified.Fast8}.
Import Unified.

Lemma raw_gpio37_40_bit d i :
  8 <= fast8_bits -> 0 <= i < 3 ->
  Z.testbit (raw_gpio37_40 d) i = negb (Z.testbit d (i + 5)).
Proof.
  intros Hw Hi. unfold raw_gpio37_40, to_fast8.
  rewrite Z.mod_pow2_bits_low by lia.
  rewrite Z.shiftr_spec by lia. by rewrite Z.lnot_spec by lia.
Qed.

Lemma to_fast8_small z : 8 <= fast8_bits -> 0 <= z < 8 -> to_fast8 z = z.
Proof.
  intros Hw Hz. unfold to_fast8. apply Z.mod_small.
  assert (2 ^ 3 <= 2 ^ fast8_bits) by (apply Z.pow_le_mono_r; lia). lia.
Qed.

(** The three low bits of a number, as a number below 8. *)
Lemma low_bits_cases raw :
  exists b0 b1 b2 : bool,
    Z.testbit raw 0 = b0 /\ Z.testbit raw 1 = b1 /\ Z.testbit raw 2 = b2 /\
    Z.land raw 1 = Z.b2z b0 /\
    Z.land raw 2 = 2 * Z.b2z b1 /\
    Z.land raw 4 = 4 * Z.b2z b2 /\
    Z.land raw 7 = Z.b2z b0 + 2 * Z.b2z b1 + 4 * Z.b2z b2.
Proof.
  exists (Z.testbit raw 0), (Z.testbit raw 1), (Z.testbit raw 2).
  split; [done|]. split; [done|]. split; [done|].
  set (r := Z.land raw 7).
  assert (0 <= r < 8) as Hr.
  { subst r. change 7 with (Z.ones 3). rewrite Z.land_ones by lia.
    apply Z.mod_pos_bound. lia. }
  assert (forall i, 0 <= i < 3 -> Z.testbit raw i = Z.testbit r i) as Hbit.
  { intros i Hi. subst r. rewrite Z.land_spec.
    assert (Z.testbit 7 i = true) as ->; [|by rewrite andb_true_r].
    assert (i = 0 \/ i = 1 \/ i = 2) as [->|[->| ->]] by lia; done. }
  assert (forall m, Z.land 7 m = m -> Z.land raw m = Z.land r m) as Hland.
  { intros m Hm. subst r. by rewrite <- Z.land_assoc, Hm. }
  rewrite !Hbit by lia.
  rewrite (Hland 1), (Hland 2), (Hland 4) by done.
  assert (r = 0 \/ r = 1 \/ r = 2 \/ r = 3 \/ r = 4 \/ r = 5 \/ r = 6 \/ r = 7)
    as Hcases by lia.
  destruct Hcases as [->|[->|[->|[->|[->|[->|[->| ->]]]]]]]; done.
Qed.
Lemma land_pow2 x k :
  0 <= k -> Z.land x (2 ^ k) = if Z.testbit x k then 2 ^ k else 0.
Proof.
  intros Hk. apply Z.bits_inj'. intros n Hn.
  rewrite Z.land_spec, Z.pow2_bits_eqb by done.
  destruct (Z.eqb_spec k n) as [->|Hne].
  - destruct (Z.testbit x n); simpl.
    + by rewrite Z.pow2_bits_true.
    + by rewrite Z.bits_0.
  - rewrite andb_false_r. destruct (Z.testbit x k).
    + by rewrite Z.pow2_bits_false.
    + by rewrite Z.bits_0.
Qed.

Lemma ink_button g pin :
  0 <= pin < 32 ->
  to_bool (Z.land (to_uint32 (Z.lnot g)) (Z.shiftl 1 pin)) = low0 g pin.
Proof.
  intros Hpin. rewrite Z.shiftl_1_l, land_pow2 by lia. unfold to_uint32, low0.
  rewrite Z.mod_pow2_bits_low, Z.lnot_spec by lia.
  assert (0 < 2 ^ pin) by (apply Z.pow_pos_nonneg; lia).
  unfold to_bool. destruct (Z.testbit g pin); simpl.
  - done.
  - destruct (Z.eqb_spec (2 ^ pin) 0); [lia|done].
Qed.

(** X16. Which pin drives which button. On the M5Stack, button A follows
    GPIO39, B GPIO38 and C GPIO37; on the Paper, the Station and the CoreInk
    A, B, C follow GPIO37, 38, 39; on the StickC and StickC Plus A follows
    GPIO37 and B GPIO39; on the ATOM boards and the Stamp Pico A follows
    GPIO39. A button is pressed exactly when its pin reads low. On the
    CoreInk the buttons EXT and PWR follow GPIO5 and GPIO27. *)
Theorem buttons_follow_their_pins d g c :
  8 <= fast8_bits ->
  let st board := update_buttons board d g c in
  (BtnA (st board_M5Stack) = low1 d 39 /\
   BtnB (st board_M5Stack) = low1 d 38 /\
   BtnC (st board_M5Stack) = low1 d 37) /\
  (forall board,
      board = board_M5Paper \/ board = board_M5Station \/
      board = board_M5StackCoreInk ->
      BtnA (st board) = low1 d 37 /\
      BtnB (st board) = low1 d 38 /\
      BtnC (st board) = low1 d 39) /\
  (forall board,
      board = board_M5StickC \/ board = board_M5StickCPlus ->
      BtnA (st board) = low1 d 37 /\
      BtnB (st board) = low1 d 39 /\
      BtnC (st board) = false) /\
  (forall board,
      board = board_M5Atom \/ board = board_M5AtomPsram \/
      board = board_M5AtomU \/ board = board_M5StampPico ->
      BtnA (st board) = low1 d 39 /\
      BtnB (st board) = false /\
      BtnC (st board) = false) /\
  (BtnEXT (st board_M5StackCoreInk) = Some (low0 g 5) /\
   BtnPWR (st board_M5StackCoreInk) = Some (low0 g 27)).
Proof.
  intros Hw st. subst st. cbn beta.
  destruct (low_bits_cases (raw_gpio37_40 d))
    as (b0 & b1 & b2 & H0 & H1 & H2 & L1 & L2 & L4 & L7).
  rewrite raw_gpio37_40_bit in H0, H1, H2 by lia.
  assert (low1 d 37 = b0) as -> by (unfold low1; by rewrite <- H0).
  assert (low1 d 38 = b1) as -> by (unfold low1; by rewrite <- H1).
  assert (low1 d 39 = b2) as -> by (unfold low1; by rewrite <- H2).
  assert (forall z, 0 <= z < 8 -> to_fast8 z = z) as Hsmall
    by (intros; by apply to_fast8_small).
  split; [|split; [|split; [|split]]].
  - unfold update_buttons, btn_bits. cbn [BtnA BtnB BtnC].
    rewrite L1, L2, L4.
    destruct b0, b1, b2; cbn [Z.b2z]; eval_fast8 Hsmall; done.
  - intros board [->|[->| ->]]; unfold update_buttons, btn_bits;
      cbn [BtnA BtnB BtnC]; rewrite L7;
      destruct b0, b1, b2; cbn [Z.b2z]; eval_fast8 Hsmall; done.
  - intros board [->| ->]; unfold update_buttons, btn_bits;
      cbn [BtnA BtnB BtnC]; rewrite L1, L4;
      destruct b0, b2; cbn [Z.b2z]; eval_fast8 Hsmall; done.
  - intros board [->|[->|[->| ->]]]; unfold update_buttons, btn_bits;
      cbn [BtnA BtnB BtnC]; rewrite L4;
      destruct b2; cbn [Z.b2z]; eval_fast8 Hsmall; done.
  - unfold update_buttons. cbn [BtnEXT BtnPWR].
    unfold CoreInk_BUTTON_EXT_PIN, CoreInk_BUTTON_PWR_PIN.
    by rewrite !ink_button by lia.
Qed.

(** X17. The two I2C buses that [_check_boardtype] sets up never collide,
    except on the M5Stack, where the internal bus is deliberately the bus
    of port A: on the M5Stack both setups are equal; on every other board
    the external bus is port 0, the internal bus is port 1, and no pin
    serves both. *)
Theorem i2c_buses_do_not_collide pkg_d0wdq6 pkg_picod4 arduino b pkg_ver gpio2 gpio34 :
  let r := _check_boardtype pkg_d0wdq6 pkg_picod4 arduino b pkg_ver gpio2 gpio34 in
  port (Ex_I2C r) = 0 /\
  (board r = board_M5Stack -> In_I2C r = Ex_I2C r) /\
  (board r <> board_M5Stack ->
   port (In_I2C r) = 1 /\
   pin_sda (In_I2C r) <> pin_sda (Ex_I2C r) /\
   pin_sda (In_I2C r) <> pin_scl (Ex_I2C r) /\
   pin_scl (In_I2C r) <> pin_sda (Ex_I2C r) /\
   pin_scl (In_I2C r) <> pin_scl (Ex_I2C r)).
Proof.
  intros r. subst r. unfold _check_boardtype.
  destruct (match b with
            | board_unknown => detect_board pkg_d0wdq6 pkg_picod4 arduino pkg_ver gpio2 gpio34
            | _ => (b, [])
            end) as [b' modes].
  cbn [board In_I2C Ex_I2C pin_modes].
  destruct b'; cbn; repeat split; intros; (done || lia).
Qed.

End UnifiedFacts.

(** ** The further properties at concrete inputs

    As before, on the 32-bit target. *)

Section MoreWitnesses.
#[local] Existing Instance size_t_32.
#[local] Existing Instance int_init.
#[local] Existing Instance fast8_min.

Lemma fill_overwrites_everything_witness :
  wf wrapped_4 /\
  full (fill 111 wrapped_4) = true /\
  contents (fill 111 wrapped_4) = [111; 111; 111; 111] /\
  at_ (fill 111 wrapped_4) 3 = Some 111.
Proof.
  assert (wf wrapped_4) as Hwf by (apply wfb_wf; vm_compute; reflexivity).
  destruct (fill_overwrites_everything 111 wrapped_4 Hwf)
    as (_ & Hfull & _ & _ & Hcont & _ & _ & Hat).
  split; [exact Hwf|]. split; [exact Hfull|]. split; [exact Hcont|].
  apply Hat. vm_compute. split; [discriminate|reflexivity].
Defined.

Lemma assign_fill_copies_witness :
  0 <= 2 /\
  (wf wrapped_4 /\ contents (assign_fill 2 52 wrapped_4) = [52; 52]) /\
  (make_fill 2 52 = Some (assign_fill 2 52 {| _buf := [0; 0]; _cap := 2;
                            _head := 0; _tail := 0; _full := false |}) /\
   full (assign_fill 2 52 {| _buf := [0; 0]; _cap := 2;
           _head := 0; _tail := 0; _full := false |}) = true) /\
  (fixed_make_fill 4 2 52 = Some (assign_fill 2 52 fresh_4) /\
   capacity (assign_fill 2 52 fresh_4) = 4 /\
   contents (assign_fill 2 52 fresh_4) = [52; 52]).
Proof.
  assert (0 <= 2) as Hn by lia.
  assert (wf wrapped_4) as Hwf by (apply wfb_wf; vm_compute; reflexivity).
  destruct (assign_fill_copies 2 52 Hn) as (Hassign & Hmake & Hfixed).
  split; [exact Hn|]. split; [|split].
  - split; [exact Hwf|]. exact (proj1 (Hassign wrapped_4 Hwf)).
  - split; [reflexivity|]. exact (proj1 (proj2 (Hmake _ eq_refl))).
  - split; [reflexivity|].
    destruct (Hfixed 4 _ eq_refl) as (Hcap & Hcont & _).
    split; [exact Hcap|exact Hcont].
Defined.

Lemma push_back_all_keeps_most_recent_witness :
  wf fresh_4 /\
  contents (push_back_all [9; 10; 11; 12; 13] fresh_4) = [10; 11; 12; 13].
Proof.
  assert (wf fresh_4) as Hwf by (apply wfb_wf; vm_compute; reflexivity).
  split; [exact Hwf|].
  exact (proj2 (proj2 (push_back_all_keeps_most_recent
                         [9; 10; 11; 12; 13] fresh_4 Hwf))).
Defined.

Lemma pop_removes_one_end_witness :
  wf wrapped_4 /\ 0 < size wrapped_4 /\
  size (pop_front wrapped_4) = 3 /\ size (pop_back wrapped_4) = 3 /\
  full (pop_front wrapped_4) = false.
Proof.
  assert (wf wrapped_4) as Hwf by (apply wfb_wf; vm_compute; reflexivity).
  assert (0 < size wrapped_4) as Hpos by reflexivity.
  destruct (pop_removes_one_end wrapped_4 Hwf Hpos)
    as (_ & _ & Hpf & Hpb & Hfull & _).
  split; [exact Hwf|]. split; [exact Hpos|]. split; [exact Hpf|].
  split; [exact Hpb|exact Hfull].
Defined.

Lemma push_then_pop_same_end_witness :
  wf wrapped_4 /\
  contents (pop_back (push_back 5 wrapped_4)) = [2; 3; 4] /\
  contents (pop_front (push_front 5 wrapped_4)) = [1; 2; 3].
Proof.
  assert (wf wrapped_4) as Hwf by (apply wfb_wf; vm_compute; reflexivity).
  split; [exact Hwf|]. exact (push_then_pop_same_end 5 wrapped_4 Hwf).
Defined.


Lemma capacity_never_changes_witness :
  rtc mutates fresh_4 (fill 7 (push_back 1 fresh_4)) /\
  capacity (fill 7 (push_back 1 fresh_4)) = capacity fresh_4.
Proof.
  assert (rtc mutates fresh_4 (fill 7 (push_back 1 fresh_4))) as Hsteps.
  { eapply rtc_l; [apply (mut_push_back 1)|].
    eapply rtc_l; [apply (mut_fill 7)|]. apply rtc_refl. }
  split; [exact Hsteps|].
  exact (proj1 (capacity_never_changes _ _ Hsteps)).
Defined.


Lemma size_after_modifiers_witness :
  wf wrapped_4 /\
  size (push_back 5 wrapped_4) = 4 /\ size (pop_front wrapped_4) = 3.
Proof.
  assert (wf wrapped_4) as Hwf by (apply wfb_wf; vm_compute; reflexivity).
  destruct (size_after_modifiers 5 wrapped_4 Hwf) as (Hpb & _ & Hpf & _).
  split; [exact Hwf|]. split; [exact Hpb|exact Hpf].
Defined.

Lemma begin_is_end_iff_empty_witness :
  wf wrapped_4 /\
  iter_eqb (begin_ 0 wrapped_4) (end_ 0 wrapped_4) = false.
Proof.
  assert (wf wrapped_4) as Hwf by (apply wfb_wf; vm_compute; reflexivity).
  split; [exact Hwf|].
  exact (proj1 (begin_is_end_iff_empty 0%nat wrapped_4 Hwf)).
Defined.

Lemma iterator_steps_invert_witness :
  0 <= _pos {| _buffer := 0; _pos := 4294967295 |} < 2 ^ size_bits /\
  iter_decr (iter_incr {| _buffer := 0; _pos := 4294967295 |})
  = {| _buffer := 0; _pos := 4294967295 |}.
Proof.
  assert (0 <= _pos {| _buffer := 0; _pos := 4294967295 |} < 2 ^ size_bits)
    as Hpos by (vm_compute; split; [discriminate|reflexivity]).
  split; [exact Hpos|].
  exact (proj1 (iterator_steps_invert _ Hpos)).
Defined.

Lemma backward_loop_reverses_witness :
  wf wrapped_4 /\ (Z.to_nat (size wrapped_4) <= 4)%nat /\
  traverse_back 4 wrapped_4 (end_ 0 wrapped_4) (begin_ 0 wrapped_4)
  = Some [4; 3; 2; 1].
Proof.
  assert (wf wrapped_4) as Hwf by (apply wfb_wf; vm_compute; reflexivity).
  assert ((Z.to_nat (size wrapped_4) <= 4)%nat) as Hfuel by (vm_compute; lia).
  split; [exact Hwf|]. split; [exact Hfuel|].
  exact (backward_loop_reverses 0%nat wrapped_4 4%nat Hwf Hfuel).
Defined.
Lemma path_to_filename_after_last_slash_witness :
  Log.after sample_path
  = list_ascii_of_string "src" ++ Log.slash
      :: list_ascii_of_string "main.cpp" ++ [] /\
  (Log.NUL ∉ list_ascii_of_string "src") /\
  (Log.NUL ∉ list_ascii_of_string "main.cpp") /\
  (Log.slash ∉ list_ascii_of_string "main.cpp") /\
  Log.terminated [] /\
  Log.pathToFilename (Some sample_path)
  = Some {| Log.before := list_ascii_of_string "/crs";
            Log.after := list_ascii_of_string "main.cpp" |}.
Proof.
  assert (Log.NUL ∉ list_ascii_of_string "src") as Hdir
    by (apply (bool_decide_unpack _); vm_compute; exact I).
  assert (Log.NUL ∉ list_ascii_of_string "main.cpp") as Hfile
    by (apply (bool_decide_unpack _); vm_compute; exact I).
  assert (Log.slash ∉ list_ascii_of_string "main.cpp") as Hslash
    by (apply (bool_decide_unpack _); vm_compute; exact I).
  assert (Log.terminated []) as Hrest by reflexivity.
  split; [reflexivity|]. split; [exact Hdir|]. split; [exact Hfile|].
  split; [exact Hslash|]. split; [exact Hrest|].
  exact (proj1 (path_to_filename_after_last_slash sample_path
                  (list_ascii_of_string "src") (list_ascii_of_string "main.cpp")
                  [] eq_refl Hdir Hfile Hslash Hrest)).
Defined.

Lemma path_to_filename_without_slash_witness :
  Log.after sample_name = list_ascii_of_string "main.cpp" ++ [] /\
  (Log.NUL ∉ list_ascii_of_string "main.cpp") /\
  (Log.slash ∉ list_ascii_of_string "main.cpp") /\
  Log.terminated [] /\
  exists r,
    Log.pathToFilename (Some sample_name) = Some r /\
    Log.c_str r = list_ascii_of_string "main.cpp" /\
    (list_ascii_of_string "main.cpp" <> [] -> r = sample_name).
Proof.
  assert (Log.NUL ∉ list_ascii_of_string "main.cpp") as Hnul
    by (apply (bool_decide_unpack _); vm_compute; exact I).
  assert (Log.slash ∉ list_ascii_of_string "main.cpp") as Hslash
    by (apply (bool_decide_unpack _); vm_compute; exact I).
  assert (Log.terminated []) as Hrest by reflexivity.
  split; [reflexivity|]. split; [exact Hnul|]. split; [exact Hslash|].
  split; [exact Hrest|].
  exact (proj1 path_to_filename_without_slash sample_name
           (list_ascii_of_string "main.cpp") [] eq_refl Hnul Hslash Hrest).
Defined.

Lemma buttons_follow_their_pins_witness :
  8 <= Unified.fast8_bits /\
  Unified.BtnA (Unified.update_buttons Unified.board_M5Stack 127 0 0) = true /\
  Unified.BtnB (Unified.update_buttons Unified.board_M5Stack 127 0 0) = false /\
  Unified.BtnC (Unified.update_buttons Unified.board_M5Stack 127 0 0) = false.
Proof.
  assert (8 <= Unified.fast8_bits) as Hw by (vm_compute; discriminate).
  split; [exact Hw|].
  exact (proj1 (buttons_follow_their_pins 127 0 0 Hw)).
Defined.

Lemma i2c_buses_do_not_collide_witness :
  Unified.board (Unified._check_boardtype 0 5 None Unified.board_M5Paper 1 true true)
  <> Unified.board_M5Stack /\
  Unified.port (Unified.In_I2C
    (Unified._check_boardtype 0 5 None Unified.board_M5Paper 1 true true)) = 1 /\
  Unified.board (Unified._check_boardtype 0 5 None Unified.board_M5Stack 1 true true)
  = Unified.board_M5Stack /\
  Unified.In_I2C (Unified._check_boardtype 0 5 None Unified.board_M5Stack 1 true true)
  = Unified.Ex_I2C (Unified._check_boardtype 0 5 None Unified.board_M5Stack 1 true true).
Proof.
  assert (Unified.board
            (Unified._check_boardtype 0 5 None Unified.board_M5Paper 1 true true)
          <> Unified.board_M5Stack) as Hpaper by discriminate.
  assert (Unified.board
            (Unified._check_boardtype 0 5 None Unified.board_M5Stack 1 true true)
          = Unified.board_M5Stack) as Hstack by reflexivity.
  destruct (i2c_buses_do_not_collide 0 5 None Unified.board_M5Paper 1 true true)
    as (_ & _ & Hother).
  destruct (i2c_buses_do_not_collide 0 5 None Unified.board_M5Stack 1 true true)
    as (_ & Hsame & _).
  split; [exact Hpaper|]. split; [exact (proj1 (Hother Hpaper))|].
  split; [exact Hstack|exact (Hsame Hstack)].
Defined.
End MoreWitnesses.
